(** * json_viewer: the JSON recovery engine of [src/lib/json-utils.ts]

    A shallow embedding of [extractJson], [findJsonFragments] and
    [safeStringify], together with the parts of the JavaScript platform
    they call ([String.prototype.trim], [split], [match] with a global
    regular expression, [JSON.parse], [JSON.stringify]).

    JavaScript strings are sequences of UTF-16 code units: a string is a
    [list N], and [text.length] is the length of that list. *)

From Stdlib Require Import ZArith NArith Lia Ascii String DecimalString Sorted.
From stdpp Require Import gmap strings list.

Set Warnings "-register-all,-clear-no-such-hyp".
Local Open Scope N_scope.

(** ** Strings *)

Abbreviation str := (list N).

(** [lit] turns a literal into a JavaScript string. The apostrophe stands
    for the double quote (code unit 34), so that JSON text can be written
    inline: [lit "{'a':1}"] is the text [{"a":1}]. *)
Definition lit (s : string) : str :=
  map (fun c => if Ascii.eqb c "'" then 34 else N_of_ascii c)
      (list_ascii_of_string s).

Definition str_eqb (a b : str) : bool := bool_decide (a = b).

(** [text.length], kept in [Z] so that it can be compared with the limit. *)
Definition str_length (s : str) : Z := Z.of_nat (length s).

(** WhiteSpace and LineTerminator code units, as stripped by [trim]. *)
Definition isWhiteSpace (c : N) : bool :=
  (c =? 9) || (c =? 10) || (c =? 11) || (c =? 12) || (c =? 13) ||
  (c =? 32) || (c =? 160) || (c =? 5760) ||
  ((8192 <=? c) && (c <=? 8202)) ||
  (c =? 8232) || (c =? 8233) || (c =? 8239) || (c =? 8287) ||
  (c =? 12288) || (c =? 65279).

Fixpoint trimStart (s : str) : str :=
  match s with
  | c :: r => if isWhiteSpace c then trimStart r else s
  | [] => []
  end.

Definition trimEnd (s : str) : str := rev (trimStart (rev s)).

(** [String.prototype.trim] *)
Definition trim (s : str) : str := trimEnd (trimStart s).

(** [s.startsWith(p)] *)
Fixpoint startsWith (p s : str) : bool :=
  match p, s with
  | [], _ => true
  | a :: p', b :: s' => (a =? b) && startsWith p' s'
  | _ :: _, [] => false
  end.

(** [s.endsWith(p)] *)
Definition endsWith (p s : str) : bool := startsWith (rev p) (rev s).

(** [s.includes(p)] *)
Fixpoint includes (p s : str) : bool :=
  startsWith p s ||
  match s with
  | [] => false
  | _ :: r => includes p r
  end.

(** [s.split(sep)] for a separator of one code unit. *)
Fixpoint split (sep : N) (s : str) : list str :=
  match s with
  | [] => [[]]
  | c :: r =>
      if c =? sep then [] :: split sep r
      else match split sep r with
           | l :: ls => (c :: l) :: ls
           | [] => [[c]]
           end
  end.

(** Decimal digits of a non-negative integer ([Number::toString] on the
    line counter). *)
Definition decimal (n : N) : str :=
  map N_of_ascii (list_ascii_of_string (NilZero.string_of_uint (N.to_uint n))).

(** [n] spaces. *)
Definition spaces (n : nat) : str := repeat 32 n.

(** ** JSON values *)

(** A number is kept as the exact decimal [mant * 10 ^ expo], with [mant]
    free of trailing zeros (zero is [0 * 10 ^ 0]). The rounding of
    [JSON.parse] to binary64 is outside the model, but for the one test
    that the code makes on a number, whether it is zero. *)
Record number := Num { mant : Z; expo : Z }.

(** Whether the binary64 number that [JSON.parse] makes of the decimal is
    zero: the decimal is zero, or its magnitude is at most [2 ^ -1075],
    half of the least positive binary64 number, which rounding to nearest,
    ties to even, takes to zero. *)
Definition isZeroNumber (x : number) : bool :=
  (mant x =? 0)%Z
  || ((expo x <? 0)%Z && (Z.abs (mant x) * 2 ^ 1075 <=? 10 ^ (- expo x))%Z).

Inductive json :=
| JNull
| JBool (b : bool)
| JNumber (x : number)
| JString (s : str)
| JArray (items : list json)
| JObject (props : list (str * json)).

(** Outcome of a call that may throw: [Throw] carries the error message. *)
Inductive completion (A : Type) :=
| Return (x : A)
| Throw (message : str).
Arguments Return {A} x.
Arguments Throw {A} message.

(** JavaScript truthiness of a JSON value ([if (extracted)]). *)
Definition truthy (v : json) : bool :=
  match v with
  | JNull => false
  | JBool b => b
  | JNumber x => negb (isZeroNumber x)
  | JString s => match s with [] => false | _ => true end
  | JArray _ | JObject _ => true
  end.

(** *** Own properties of an object, in enumeration order

    [JSON.parse] defines each member with CreateDataProperty: a key that is
    already present keeps its place and takes the new value; a new array
    index key goes among the index keys in ascending order, before every
    other key; any other new key goes last. *)

Definition isDigit (c : N) : bool := (48 <=? c) && (c <=? 57).

Fixpoint digitsValue (acc : N) (ds : str) : N :=
  match ds with
  | [] => acc
  | d :: r => digitsValue (10 * acc + (d - 48)) r
  end.

(** The array index denoted by a key: a canonical decimal numeral below
    [2^32 - 1]. *)
Definition arrayIndex (k : str) : option N :=
  match k with
  | [] => None
  | d :: r =>
      if forallb isDigit k && negb ((d =? 48) && negb (bool_decide (r = [])))
         && (Nat.leb (length k) 10)
      then let v := digitsValue 0 k in
           if v <? 4294967295 then Some v else None
      else None
  end.

Fixpoint hasKey (k : str) (props : list (str * json)) : bool :=
  match props with
  | [] => false
  | (k', _) :: r => str_eqb k k' || hasKey k r
  end.

Fixpoint replaceKey (k : str) (v : json) (props : list (str * json)) :=
  match props with
  | [] => []
  | (k', v') :: r =>
      if str_eqb k k' then (k', v) :: r else (k', v') :: replaceKey k v r
  end.

Fixpoint insertIndexKey (i : N) (k : str) (v : json) (props : list (str * json)) :=
  match props with
  | [] => [(k, v)]
  | (k', v') :: r =>
      match arrayIndex k' with
      | Some j => if j <? i then (k', v') :: insertIndexKey i k v r
                  else (k, v) :: props
      | None => (k, v) :: props
      end
  end.

Definition defineProperty (k : str) (v : json) (props : list (str * json)) :=
  if hasKey k props then replaceKey k v props
  else match arrayIndex k with
       | Some i => insertIndexKey i k v props
       | None => props ++ [(k, v)]
       end.

(** ** [JSON.parse]

    A recursive-descent parser for the JSON grammar of ECMA-404, on code
    units. [parseValue] takes a bound on the nesting of its own calls; a
    bound larger than the length of the text is never reached, since every
    nested call works on a strictly shorter text ([parseValue_bound]
    below). *)

Definition isJsonWs (c : N) : bool :=
  (c =? 9) || (c =? 10) || (c =? 13) || (c =? 32).

Fixpoint skipWs (s : str) : str :=
  match s with
  | c :: r => if isJsonWs c then skipWs r else s
  | [] => []
  end.

Definition hexValue (c : N) : option N :=
  if (48 <=? c) && (c <=? 57) then Some (c - 48)
  else if (65 <=? c) && (c <=? 70) then Some (c - 55)
  else if (97 <=? c) && (c <=? 102) then Some (c - 87)
  else None.

Definition hex4 (a b c d : N) : option N :=
  match hexValue a, hexValue b, hexValue c, hexValue d with
  | Some x, Some y, Some z, Some w => Some (((x * 16 + y) * 16 + z) * 16 + w)
  | _, _, _, _ => None
  end.

(** The code unit denoted by a single-character escape. *)
Definition unescape (e : N) : option N :=
  if e =? 34 then Some 34          (* quotation mark *)
  else if e =? 92 then Some 92     (* reverse solidus *)
  else if e =? 47 then Some 47     (* solidus *)
  else if e =? 98 then Some 8      (* backspace *)
  else if e =? 102 then Some 12    (* form feed *)
  else if e =? 110 then Some 10    (* line feed *)
  else if e =? 114 then Some 13    (* carriage return *)
  else if e =? 116 then Some 9     (* tab *)
  else None.

(** The characters of a string literal after its opening quote, up to and
    including the closing quote. *)
Fixpoint parseChars (s : str) : option (str * str) :=
  match s with
  | [] => None
  | c :: r =>
      if c =? 34 then Some ([], r)
      else if c =? 92 then
        match r with
        | [] => None
        | e :: r' =>
            if e =? 117 then
              match r' with
              | h1 :: h2 :: h3 :: h4 :: r'' =>
                  match hex4 h1 h2 h3 h4 with
                  | Some u =>
                      match parseChars r'' with
                      | Some (t, rest) => Some (u :: t, rest)
                      | None => None
                      end
                  | None => None
                  end
              | _ => None
              end
            else
              match unescape e with
              | Some u =>
                  match parseChars r' with
                  | Some (t, rest) => Some (u :: t, rest)
                  | None => None
                  end
              | None => None
              end
        end
      else if c <? 32 then None
      else
        match parseChars r with
        | Some (t, rest) => Some (c :: t, rest)
        | None => None
        end
  end.

(** The longest prefix of digits, and what follows it. *)
Fixpoint spanDigits (s : str) : str * str :=
  match s with
  | c :: r =>
      if isDigit c then let '(ds, rest) := spanDigits r in (c :: ds, rest)
      else ([], s)
  | [] => ([], [])
  end.

Fixpoint dropZeros (ds : str) : str :=
  match ds with
  | d :: r => if d =? 48 then dropZeros r else ds
  | [] => []
  end.

(** The value of a numeral with significand digits [ds] (read as an
    integer), sign [neg] and decimal exponent [e]. *)
Definition mkNumber (neg : bool) (ds : str) (e : Z) : number :=
  let sig := rev (dropZeros (rev ds)) in
  let m := Z.of_N (digitsValue 0 sig) in
  if Z.eqb m 0 then Num 0 0
  else Num (if neg then Z.opp m else m)
           (e + Z.of_nat (length ds) - Z.of_nat (length sig)).

(** An optional minus sign. *)
Definition parseSign (s : str) : bool * str :=
  match s with
  | c :: r => if c =? 45 then (true, r) else (false, s)
  | [] => (false, s)
  end.

(** int = zero / ( digit1-9 *DIGIT ); [None] when there is no digit. *)
Definition parseInt (s : str) : option (str * str) :=
  match s with
  | c :: r =>
      if c =? 48 then Some ([c], r)
      else match spanDigits s with
           | ([], _) => None
           | (ds, rest) => Some (ds, rest)
           end
  | [] => None
  end.

(** frac = decimal-point 1*DIGIT, optional. *)
Definition parseFrac (s : str) : option (str * str) :=
  match s with
  | c :: r =>
      if c =? 46 then
        match spanDigits r with
        | ([], _) => None
        | (fd, rest) => Some (fd, rest)
        end
      else Some ([], s)
  | [] => Some ([], s)
  end.

(** exp = e [ minus / plus ] 1*DIGIT, optional. *)
Definition parseExp (s : str) : option (Z * str) :=
  match s with
  | c :: r =>
      if (c =? 101) || (c =? 69) then
        let '(eneg, r1) :=
          match r with
          | g :: r' =>
              if g =? 45 then (true, r')
              else if g =? 43 then (false, r')
              else (false, r)
          | [] => (false, r)
          end in
        match spanDigits r1 with
        | ([], _) => None
        | (ed, rest) =>
            let e := Z.of_N (digitsValue 0 ed) in
            Some (if eneg then Z.opp e else e, rest)
        end
      else Some (0%Z, s)
  | [] => Some (0%Z, s)
  end.

(** number = [ minus ] int [ frac ] [ exp ] *)
Definition parseNumber (s : str) : option (number * str) :=
  let '(neg, s1) := parseSign s in
  match parseInt s1 with
  | None => None
  | Some (ip, s2) =>
      match parseFrac s2 with
      | None => None
      | Some (fd, s3) =>
          match parseExp s3 with
          | None => None
          | Some (e, s4) =>
              Some (mkNumber neg (ip ++ fd) (e - Z.of_nat (length fd)), s4)
          end
      end
  end.

(** A keyword ([true], [false], [null]) at the head of the text. *)
Definition keyword (w : str) (v : json) (s : str) : option (json * str) :=
  if startsWith w s then Some (v, drop (length w) s) else None.

(** The members of an object after its opening brace, [s] starting at the
    first key; [pv] parses one value, [k] bounds the number of members. *)
Fixpoint parseMembers (pv : str -> option (json * str)) (k : nat) (s : str)
    (acc : list (str * json)) : option (json * str) :=
  match k with
  | O => None
  | S k' =>
      match s with
      | q :: s0 =>
          if q =? 34 then
            match parseChars s0 with
            | Some (key, s1) =>
                match skipWs s1 with
                | colon :: s2 =>
                    if colon =? 58 then
                      match pv (skipWs s2) with
                      | Some (v, s3) =>
                          let acc' := defineProperty key v acc in
                          match skipWs s3 with
                          | d :: s4 =>
                              if d =? 44 then parseMembers pv k' (skipWs s4) acc'
                              else if d =? 125 then Some (JObject acc', s4)
                              else None
                          | [] => None
                          end
                      | None => None
                      end
                    else None
                | [] => None
                end
            | None => None
            end
          else None
      | [] => None
      end
  end.

(** The elements of an array after its opening bracket, [s] starting at
    the first element. *)
Fixpoint parseElements (pv : str -> option (json * str)) (k : nat) (s : str)
    (acc : list json) : option (json * str) :=
  match k with
  | O => None
  | S k' =>
      match pv s with
      | Some (v, s1) =>
          match skipWs s1 with
          | d :: s2 =>
              if d =? 44 then parseElements pv k' (skipWs s2) (v :: acc)
              else if d =? 93 then Some (JArray (rev (v :: acc)), s2)
              else None
          | [] => None
          end
      | None => None
      end
  end.

Fixpoint parseValue (depth : nat) (s : str) : option (json * str) :=
  match depth with
  | O => None
  | S n =>
      match s with
      | [] => None
      | c :: r =>
          if c =? 123 then
            match skipWs r with
            | c1 :: r1 =>
                if c1 =? 125 then Some (JObject [], r1)
                else parseMembers (parseValue n) n (c1 :: r1) []
            | [] => None
            end
          else if c =? 91 then
            match skipWs r with
            | c1 :: r1 =>
                if c1 =? 93 then Some (JArray [], r1)
                else parseElements (parseValue n) n (c1 :: r1) []
            | [] => None
            end
          else if c =? 34 then
            match parseChars r with
            | Some (t, rest) => Some (JString t, rest)
            | None => None
            end
          else if c =? 116 then keyword (lit "true") (JBool true) s
          else if c =? 102 then keyword (lit "false") (JBool false) s
          else if c =? 110 then keyword (lit "null") JNull s
          else if (c =? 45) || isDigit c then
            match parseNumber s with
            | Some (x, rest) => Some (JNumber x, rest)
            | None => None
            end
          else None
      end
  end.

(** Result of [JSON.parse]: the value, or the SyntaxError it throws. *)
Inductive parsed :=
| Parsed (v : json)
| SyntaxError (message : str).

(** The text of the SyntaxError is chosen by the engine; the model fixes
    one wording for every syntax error. *)
Definition syntaxErrorMessage : str := lit "Unexpected token in JSON".

Definition JSON_parse (text : str) : parsed :=
  match parseValue (S (length text)) (skipWs text) with
  | Some (v, rest) =>
      match skipWs rest with
      | [] => Parsed v
      | _ :: _ => SyntaxError syntaxErrorMessage
      end
  | None => SyntaxError syntaxErrorMessage
  end.

(** ** Regular expressions

    The two patterns of [extractJson] use literal characters, negated
    character classes, sequence, alternation and the greedy star. [exec]
    is the backtracking matcher of the language specification in
    continuation-passing style: [exec r k s] matches [r] at the head of [s]
    and hands the rest of the text to [k]; the first way of matching that
    [k] accepts wins. An iteration of the star that consumes nothing is
    rejected. *)

Inductive regex :=
| Chr (c : N)
| NoneOf (cs : list N)
| Seq (a b : regex)
| Alt (a b : regex)
| Star (a : regex).

Definition memN (c : N) (cs : list N) : bool := existsb (N.eqb c) cs.

(** The greedy star over the matcher [body] of its operand: [n] bounds the
    number of iterations, and the length of the text is enough, since
    every iteration consumes at least one code unit. *)
Definition starLoop (body : (str -> option str) -> str -> option str)
    (k : str -> option str) : nat -> str -> option str :=
  fix loop (n : nat) (s : str) : option str :=
    match n with
    | O => k s
    | S n' =>
        match body (fun s' => if Nat.ltb (length s') (length s)
                              then loop n' s' else None) s with
        | Some e => Some e
        | None => k s
        end
    end.

Fixpoint exec (r : regex) (k : str -> option str) (s : str) : option str :=
  match r with
  | Chr c =>
      match s with
      | x :: s' => if x =? c then k s' else None
      | [] => None
      end
  | NoneOf cs =>
      match s with
      | x :: s' => if memN x cs then None else k s'
      | [] => None
      end
  | Seq a b => exec a (exec b k) s
  | Alt a b =>
      match exec a k s with
      | Some e => Some e
      | None => exec b k s
      end
  | Star a => starLoop (exec a) k (length s) s
  end.

(** One attempt of the matcher at the head of [s]: the text left after the
    match. *)
Definition execAt (r : regex) (s : str) : option str := exec r Some s.

(** [o (?: [^oc] | inner )* c] *)
Definition level (o c : N) (inner : option regex) : regex :=
  Seq (Chr o)
      (Seq (Star (match inner with
                  | Some r => Alt (NoneOf [o; c]) r
                  | None => NoneOf [o; c]
                  end))
           (Chr c)).

(** [/\{(?:[^{}]|(?:\{(?:[^{}]|(?:\{[^{}]*\}))*\}))*\}/g] *)
Definition objectPattern : regex :=
  level 123 125 (Some (level 123 125 (Some (level 123 125 None)))).

(** [/\[(?:[^[\]]|(?:\[(?:[^[\]]|(?:\[[^[\]]*\]))*\]))*\]/g] *)
Definition arrayPattern : regex :=
  level 91 93 (Some (level 91 93 (Some (level 91 93 None)))).

(** The matches of a global pattern with their start offsets: the matcher
    is tried at each position from the end of the previous match on; after
    an empty match the position advances by one. [matcher] is one attempt
    at the head of the text, [n] bounds the number of attempts. *)
Fixpoint scanFrom (matcher : str -> option str) (n : nat) (offset : nat)
    (s : str) : list (nat * str) :=
  match n with
  | O => []
  | S n' =>
      match matcher s with
      | Some rest =>
          let len := (length s - length rest)%nat in
          (offset, take len s) ::
            match len with
            | O => match s with
                   | [] => []
                   | _ :: s' => scanFrom matcher n' (S offset) s'
                   end
            | S _ => scanFrom matcher n' (offset + len) rest
            end
      | None =>
          match s with
          | [] => []
          | _ :: s' => scanFrom matcher n' (S offset) s'
          end
      end
  end.

Definition matchesAt (r : regex) (text : str) : list (nat * str) :=
  scanFrom (execAt r) (S (length text)) 0 text.

(** [text.match(r)] for a global [r]; the empty list stands for [null]. *)
Definition String_match (r : regex) (text : str) : list str :=
  map snd (matchesAt r text).

(** ** The engine

    [extractJson] and [findJsonFragments], written over the parser they
    call, so that what they do can be told apart from what [JSON.parse]
    does. *)

Definition maxSize : Z := 10000000.

Definition sizeError : str := lit "Input exceeds maximum allowed size".

Definition isEmpty (s : str) : bool :=
  match s with
  | [] => true
  | _ :: _ => false
  end.

Section Engine.

Variable parse : str -> parsed.

(** The body of the inner loop of [extractJson]: [st] is
    [(largestMatch, largestParsed)]. *)
Definition tryMatch (st : str * json) (m : str) : str * json :=
  if Nat.leb (length m) (length (fst st)) then st
  else match parse m with
       | Parsed v => (m, v)
       | SyntaxError _ => st
       end.

Definition tryPattern (text : str) (st : str * json) (pattern : regex)
  : str * json :=
  fold_left tryMatch (String_match pattern text) st.

Definition jsonPatterns : list regex := [objectPattern; arrayPattern].

Definition extractJsonWith (text : str) : completion json :=
  if isEmpty (trim text) then Return JNull
  else if (str_length text >? maxSize)%Z then Throw sizeError
  else
    match parse text with
    | Parsed v => Return v
    | SyntaxError _ =>
        Return (snd (fold_left (tryPattern text) jsonPatterns ([], JNull)))
    end.

(** *** First pass of [findJsonFragments] *)

(** State of the character loop of one line. The top of [bracketStack] is
    the head of the list. *)
Record charState := CharState {
  inString : bool;
  bracketStack : list N;
  isCorruptLine : bool;
  warnings : list str
}.

Definition atLine (what : string) (lineNumber : N) : str :=
  lit what ++ decimal lineNumber.

(** The loop [for (let i = 0; i < line.length; i++)]; [prevChar] is [None]
    at [i = 0]. The loop stops at the first [break]. *)
Fixpoint scanChars (lineNumber : N) (prevChar : option N) (cs : str)
    (st : charState) : charState :=
  match cs with
  | [] => st
  | char :: rest =>
      let inStr :=
        if (char =? 34) && negb (bool_decide (prevChar = Some 92))
        then negb (inString st) else inString st in
      let '(stack, mismatched) :=
        if inStr then (bracketStack st, false)
        else if memN char [123; 91] then (char :: bracketStack st, false)
        else if memN char [125; 93] then
          let lastBracket := head (bracketStack st) in
          (tail (bracketStack st),
           ((char =? 125) && negb (bool_decide (lastBracket = Some 123)))
           || ((char =? 93) && negb (bool_decide (lastBracket = Some 91))))
        else (bracketStack st, false) in
      if mismatched then
        CharState inStr stack true
          (warnings st ++ [atLine "Mismatched brackets at line " lineNumber])
      else if inStr && (char <? 32) && negb (char =? 9) then
        CharState inStr stack true
          (warnings st ++ [atLine "Invalid control character at line " lineNumber])
      else
        scanChars lineNumber (Some char) rest
          (CharState inStr stack (isCorruptLine st) (warnings st))
  end.

(** State carried from line to line. *)
Record lineState := LineState {
  lsInString : bool;
  lsBracketStack : list N;
  currentLine : str;
  lineNumber : N;
  corruptLineNumbers : list N;
  lsWarnings : list str
}.

Definition testJson (isObject : bool) (currentLine line : str) : str :=
  let sep := if isEmpty currentLine then [] else lit "," in
  if isObject then lit "{" ++ currentLine ++ sep ++ line ++ lit "}"
  else lit "[" ++ currentLine ++ sep ++ line ++ lit "]".

Definition hasBracket (line : str) : bool :=
  includes (lit "{") line || includes (lit "}") line
  || includes (lit "[") line || includes (lit "]") line.

Definition classifyLine (isObject : bool) (ls : lineState) (line : str)
  : lineState :=
  let n := lineNumber ls + 1 in
  let cs := scanChars n None line
              (CharState (lsInString ls) (lsBracketStack ls) false (lsWarnings ls)) in
  (* unclosed string *)
  let '(corrupt1, inStr1, warn1) :=
    if inString cs
    then (true, false, warnings cs ++ [atLine "Unclosed string at line " n])
    else (isCorruptLine cs, inString cs, warnings cs) in
  (* the line in the context accepted so far *)
  let '(current2, corrupt2, warn2) :=
    match parse (testJson isObject (currentLine ls) line) with
    | Parsed _ =>
        (currentLine ls ++ (if isEmpty (currentLine ls) then [] else lit ",") ++ line,
         corrupt1, warn1)
    | SyntaxError _ =>
        if includes (lit ":") line && hasBracket line
        then (currentLine ls, true,
              warn1 ++ [atLine "Potentially corrupt JSON at line " n])
        else (currentLine ls, corrupt1, warn1)
    end in
  LineState inStr1 (bracketStack cs) current2 n
    (if corrupt2 then corruptLineNumbers ls ++ [n] else corruptLineNumbers ls)
    warn2.

(** *** Second pass *)

(** [(reconstructed, isFirstLine, lineNumber)] *)
Definition rebuildLine (isObject : bool) (corrupt : list N) (total : N)
    (st : str * bool * N) (line : str) : str * bool * N :=
  let '(reconstructed, isFirstLine, lineNumber0) := st in
  let n := lineNumber0 + 1 in
  let piece :=
    if memN n corrupt then
      lit "  "
      ++ (if isObject then lit "'__corrupt_line_" ++ decimal n ++ lit "': null"
          else lit "null")
      ++ (if isFirstLine then [] else lit ",") ++ lit "
"
    else
      lit "  " ++ trim line
      ++ (if isFirstLine || (n =? total) then [] else lit ",") ++ lit "
" in
  (reconstructed ++ piece, false, n).

Definition reconstruct (isObject isArray : bool) (corrupt : list N)
    (lines : list str) : str :=
  let opening :=
    if isObject then lit "{
" else if isArray then lit "[
" else [] in
  let '(body, _, _) :=
    fold_left (rebuildLine isObject corrupt (N.of_nat (length lines)))
              lines (opening, true, 0) in
  body ++ (if isObject then lit "}" else if isArray then lit "]" else []).

Definition shape (text : str) : bool * bool :=
  let trimmed := trim text in
  (startsWith (lit "{") trimmed && endsWith (lit "}") trimmed,
   startsWith (lit "[") trimmed && endsWith (lit "]") trimmed).

Definition firstPass (isObject : bool) (warnings0 : list str) (text : str)
  : lineState :=
  fold_left (classifyLine isObject) (split 10 text)
            (LineState false [] [] 0 [] warnings0).

(** The text that the second pass hands to the parser. *)
Definition reconstructed (warnings0 : list str) (text : str) : str :=
  let '(isObject, isArray) := shape text in
  reconstruct isObject isArray
    (corruptLineNumbers (firstPass isObject warnings0 text))
    (split 10 text).

Definition findJsonFragmentsWith (text : str) : completion (json * list str) :=
  if isEmpty (trim text) then Return (JNull, [])
  else if (str_length text >? maxSize)%Z then Throw sizeError
  else
    match parse text with
    | Parsed v => Return (v, [])
    | SyntaxError message =>
        let warnings0 := [lit "Invalid JSON: " ++ message] in
        let '(isObject, isArray) := shape text in
        if negb isObject && negb isArray then
          match extractJsonWith text with
          | Return v =>
              Return (v, warnings0 ++ [lit "Could not determine JSON structure"])
          | Throw e => Throw e
          end
        else
          let ls := firstPass isObject warnings0 text in
          let warnings1 := lsWarnings ls in
          match parse (reconstruct isObject isArray (corruptLineNumbers ls)
                                   (split 10 text)) with
          | Parsed result => Return (result, warnings1)
          | SyntaxError _ =>
              match extractJsonWith text with
              | Return extracted =>
                  if truthy extracted then
                    Return (extracted,
                            warnings1 ++ [lit "Reconstruction failed, using largest valid fragment"])
                  else
                    Return (JNull,
                            warnings1 ++ [lit "Could not recover any valid JSON"])
              | Throw e => Throw e
              end
          end
    end.

End Engine.

Definition extractJson : str -> completion json := extractJsonWith JSON_parse.

Definition findJsonFragments : str -> completion (json * list str) :=
  findJsonFragmentsWith JSON_parse.

(** The candidate fragments of [extractJson], in the order in which its
    loops try them. *)
Definition candidates (text : str) : list str :=
  String_match objectPattern text ++ String_match arrayPattern text.

(** * [safeStringify]

    ** Object graphs

    The argument of [safeStringify] is a JavaScript value: a primitive, or
    a reference to an array or to an object in the store. Two references
    to the same address are the same object, which is what the [WeakSet]
    of the replacer tells apart. The values are those of JSON: no
    [undefined], no function, no [toJSON] method. *)

Inductive value :=
| VNull
| VBool (b : bool)
| VNumber (x : number)
| VString (s : str)
| VRef (a : nat).

Inductive object :=
| OArray (items : list value)
| OObject (props : list (str * value)).

(** The members of an array or object in enumeration order, with their
    key for an object. *)
Definition members (obj : object) : list (option str * value) :=
  match obj with
  | OArray items => map (fun x => (None, x)) items
  | OObject props => map (fun kv => (Some kv.1, kv.2)) props
  end.

(** ** [JSON.stringify] *)

Definition hexDigit (d : N) : N := if d <? 10 then 48 + d else 87 + d.

(** [\uXXXX] *)
Definition unicodeEscape (u : N) : str :=
  [92; 117; hexDigit (u / 4096); hexDigit ((u / 256) mod 16);
   hexDigit ((u / 16) mod 16); hexDigit (u mod 16)].

Definition isLeadSurrogate (u : N) : bool := (55296 <=? u) && (u <=? 56319).
Definition isTrailSurrogate (u : N) : bool := (56320 <=? u) && (u <=? 57343).

Fixpoint quoteChars (s : str) : str :=
  match s with
  | [] => []
  | u :: r =>
      if u =? 8 then lit "\b" ++ quoteChars r
      else if u =? 9 then lit "\t" ++ quoteChars r
      else if u =? 10 then lit "\n" ++ quoteChars r
      else if u =? 12 then lit "\f" ++ quoteChars r
      else if u =? 13 then lit "\r" ++ quoteChars r
      else if u =? 34 then [92; 34] ++ quoteChars r
      else if u =? 92 then [92; 92] ++ quoteChars r
      else if u <? 32 then unicodeEscape u ++ quoteChars r
      else if isLeadSurrogate u then
        match r with
        | t :: r' =>
            if isTrailSurrogate t then u :: t :: quoteChars r'
            else unicodeEscape u ++ quoteChars r
        | [] => unicodeEscape u
        end
      else if isTrailSurrogate u then unicodeEscape u ++ quoteChars r
      else u :: quoteChars r
  end.

(** QuoteJSONString *)
Definition quote (s : str) : str := [34] ++ quoteChars s ++ [34].

(** Number::toString on an exact decimal with [k] digits and the decimal
    point after the [n]-th of them. *)
Definition numberToString (x : number) : str :=
  if Z.eqb (mant x) 0 then lit "0"
  else
    let digits := decimal (Z.abs_N (mant x)) in
    let k := Z.of_nat (length digits) in
    let n := (k + expo x)%Z in
    (if (mant x <? 0)%Z then lit "-" else []) ++
    (if (k <=? n)%Z && (n <=? 21)%Z then
       digits ++ replicate (Z.to_nat (n - k)) 48
     else if (0 <? n)%Z && (n <=? 21)%Z then
       take (Z.to_nat n) digits ++ lit "." ++ drop (Z.to_nat n) digits
     else if (-6 <? n)%Z && (n <=? 0)%Z then
       lit "0." ++ replicate (Z.to_nat (- n)) 48 ++ digits
     else
       let e := (n - 1)%Z in
       let es := (if (e <? 0)%Z then lit "-" else lit "+") ++ decimal (Z.abs_N e) in
       match digits with
       | [] => []
       | [d] => [d] ++ lit "e" ++ es
       | d :: ds => [d] ++ lit "." ++ ds ++ lit "e" ++ es
       end).

Fixpoint join (sep : str) (parts : list str) : str :=
  match parts with
  | [] => []
  | [p] => p
  | p :: rest => p ++ sep ++ join sep rest
  end.

Definition sentinel : str := lit "[Circular Reference]".

Definition circularError : str := lit "Converting circular structure to JSON".

(** The replacer of [safeStringify]; [seen] is the [WeakSet]. *)
Definition replacer (seen : gset nat) (v : value) : value * gset nat :=
  match v with
  | VRef a =>
      if bool_decide (a ∈ seen) then (VString sentinel, seen)
      else (v, {[a]} ∪ seen)
  | _ => (v, seen)
  end.

(** The loop over the members of an array or object: [ser] serializes one
    member, [colon] separates a key from its value. *)
Fixpoint serializeMembers
    (ser : gset nat -> value -> option (completion str * gset nat))
    (colon : str) (ms : list (option str * value)) (seen : gset nat)
  : option (completion (list str) * gset nat) :=
  match ms with
  | [] => Some (Return [], seen)
  | (key, x) :: rest =>
      match ser seen x with
      | None => None
      | Some (Throw e, seen') => Some (Throw e, seen')
      | Some (Return s, seen') =>
          let member :=
            match key with
            | Some k => quote k ++ colon ++ s
            | None => s
            end in
          match serializeMembers ser colon rest seen' with
          | None => None
          | Some (Throw e, seen'') => Some (Throw e, seen'')
          | Some (Return partial, seen'') => Some (Return (member :: partial), seen'')
          end
      end
  end.

(** The text of an array or object from the texts of its members. *)
Definition wrap (obj : object) (gap stepback indent : str) (partial : list str)
  : str :=
  let '(opening, closing) :=
    match obj with
    | OArray _ => (lit "[", lit "]")
    | OObject _ => (lit "{", lit "}")
    end in
  match partial with
  | [] => opening ++ closing
  | _ :: _ =>
      if isEmpty gap then opening ++ join (lit ",") partial ++ closing
      else opening ++ [10] ++ indent ++ join ([44; 10] ++ indent) partial
           ++ [10] ++ stepback ++ closing
  end.

(** SerializeJSONProperty with the replacer applied to the value first.
    [stack] is the serializer's own record of the objects being written,
    on which it raises a TypeError; [fuel] bounds the nesting of the
    calls. [None] stands for a bound reached or an address that is not in
    the store. *)
Fixpoint serializeProperty (fuel : nat) (h : gmap nat object) (gap indent : str)
    (stack : list nat) (seen : gset nat) (v : value)
  : option (completion str * gset nat) :=
  match fuel with
  | O => None
  | S n =>
      let '(v', seen1) := replacer seen v in
      match v' with
      | VNull => Some (Return (lit "null"), seen1)
      | VBool b => Some (Return (if b then lit "true" else lit "false"), seen1)
      | VNumber x => Some (Return (numberToString x), seen1)
      | VString s => Some (Return (quote s), seen1)
      | VRef a =>
          match h !! a with
          | None => None
          | Some obj =>
              if bool_decide (a ∈ stack) then Some (Throw circularError, seen1)
              else
                let stepback := indent in
                let indent' := indent ++ gap in
                match serializeMembers
                        (serializeProperty n h gap indent' (a :: stack))
                        (if isEmpty gap then lit ":" else lit ": ")
                        (members obj) seen1 with
                | None => None
                | Some (Throw e, seen2) => Some (Throw e, seen2)
                | Some (Return partial, seen2) =>
                    Some (Return (wrap obj gap stepback indent' partial), seen2)
                end
          end
      end
  end.

(** [safeStringify(obj, indent)]: a fresh [WeakSet], a gap of at most ten
    spaces. *)
Definition safeStringify (h : gmap nat object) (obj : value) (indent : nat)
  : option (completion str) :=
  fst <$> serializeProperty (S (size h)) h (spaces (Nat.min indent 10)) [] [] ∅ obj.

(** The JSON value that an object graph denotes, when it has no cycle
    within [fuel] levels. *)
Fixpoint treeOf (fuel : nat) (h : gmap nat object) (v : value) : option json :=
  match fuel with
  | O => None
  | S n =>
      match v with
      | VNull => Some JNull
      | VBool b => Some (JBool b)
      | VNumber x => Some (JNumber x)
      | VString s => Some (JString s)
      | VRef a =>
          match h !! a with
          | None => None
          | Some (OArray items) => JArray <$> mapM (treeOf n h) items
          | Some (OObject props) =>
              JObject <$> mapM (fun kv => pair kv.1 <$> treeOf n h kv.2) props
          end
      end
  end.

(** The tree of a graph without cycles: a path without a repeated object
    is no longer than the store. *)
Definition acyclicTree (h : gmap nat object) (v : value) : option json :=
  treeOf (S (size h)) h v.

(** A reference points into the store. *)
Definition refOk (h : gmap nat object) (v : value) : bool :=
  match v with
  | VRef a => bool_decide (is_Some (h !! a))
  | _ => true
  end.

(** Every reference held by an object of the store points into the store. *)
Definition closed (h : gmap nat object) : bool :=
  forallb (fun entry => forallb (fun m => refOk h m.2) (members entry.2))
          (map_to_list h).

(** * [shouldRenderNode]

    [expandedPaths] is a [Set] of strings. *)

(** The loop [for (let i = 0; i < pathParts.length - 1; i++)] from the
    parts that are left: the last part is not visited. *)
Fixpoint ancestorsExpanded (expandedPaths : gset str) (currentPath : str)
    (pathParts : list str) : bool :=
  match pathParts with
  | [] => true
  | [_] => true
  | part :: rest =>
      let currentPath' :=
        currentPath ++ (if isEmpty currentPath then [] else lit ".") ++ part in
      if bool_decide (currentPath' ∈ expandedPaths)
      then ancestorsExpanded expandedPaths currentPath' rest
      else false
  end.

Definition shouldRenderNode (path searchQuery : str) (expandedPaths : gset str)
  : bool :=
  if isEmpty searchQuery then ancestorsExpanded expandedPaths [] (split 46 path)
  else true.

(** * [processJson] of the viewer component

    The three pieces of component state that [processJson] sets, and the
    value it returns. [recoveredJson] is [JNull] for [null]. *)

Record viewState := ViewState {
  vsError : option str;
  vsWarnings : list str;
  vsRecoveredJson : json
}.

Definition processJson (st : viewState) (text : str) : viewState * json :=
  (* setError(null); setWarnings([]) *)
  let st0 := ViewState None [] (vsRecoveredJson st) in
  if isEmpty (trim text) then (ViewState None [] JNull, JNull)
  else
    match JSON_parse text with
    | Parsed parsed => (ViewState None [] JNull, parsed)
    | SyntaxError _ =>
        match findJsonFragments text with
        | Return (result, warnings) =>
            let st1 :=
              if Nat.ltb 0 (length warnings)
              then ViewState None warnings (vsRecoveredJson st0)
              else st0 in
            if truthy result
            then (ViewState (vsError st1) (vsWarnings st1) result, result)
            else (ViewState (Some (lit "No valid JSON found in the input"))
                            (vsWarnings st1) (vsRecoveredJson st1), JNull)
        | Throw message =>
            (ViewState (Some message) [] (vsRecoveredJson st0), JNull)
        end
    end.

(** * The output pane of the viewer

    What the tree tab and the raw tab show in the same way.  When
    [parsedJson] is truthy: the value, under the banner of a recovery when
    [recoveredJson] is truthy; the banner counts the warnings, writes the
    plural for more than one, and adds the sentence on placeholders when
    there is a warning.  Otherwise a message:
    [input.trim() ? error || ... : ...]. *)

Record banner := Banner {
  issues : nat;
  plural : bool;
  placeholderSentence : bool
}.

Inductive pane :=
| PaneValue (recovered : option banner) (data : json)
| PaneMessage (message : str).

Definition outputPane (input : str) (st : viewState) (parsedJson : json) : pane :=
  if truthy parsedJson then
    PaneValue
      (if truthy (vsRecoveredJson st)
       then Some (Banner (length (vsWarnings st))
                         (Nat.ltb 1 (length (vsWarnings st)))
                         (Nat.ltb 0 (length (vsWarnings st))))
       else None)
      parsedJson
  else
    PaneMessage
      (if isEmpty (trim input) then lit "Enter JSON to view"
       else match vsError st with
            | Some error =>
                if isEmpty error then lit "No valid JSON found" else error
            | None => lit "No valid JSON found"
            end).

(** The pane once the input has been processed: [parsedJson] is what
    [processJson] returned for the text, the state is the one it set. *)
Definition viewOf (st : viewState) (text : str) : pane :=
  outputPane text (processJson st text).1 (processJson st text).2.

(** * Invariant of the first pass of [findJsonFragments] *)

(** The invariant of the first pass: the warnings only grow, every
    flagged line has added a warning, and the flagged line numbers
    increase and are numbers of lines already read. *)
Definition firstPassInvariant (warnings0 : list str) (ls : lineState) : Prop :=
  exists extra,
    lsWarnings ls = warnings0 ++ extra
    /\ (length (corruptLineNumbers ls) <= length extra)%nat
    /\ StronglySorted N.lt (corruptLineNumbers ls)
    /\ Forall (fun n => 1 <= n <= lineNumber ls) (corruptLineNumbers ls).

(** An array or an object. *)
Definition isComposite (v : json) : bool :=
  match v with
  | JArray _ | JObject _ => true
  | _ => false
  end.

(** * [JSON.stringify] without a replacer

    [JSON.stringify(value, null, indent)], as the raw view and the copy
    button of the viewer call it: the same serializer with no replacer,
    so that the serializer's own check on the objects being written
    decides. *)

Fixpoint stringifyProperty (fuel : nat) (h : gmap nat object) (gap indent : str)
    (stack : list nat) (v : value) : option (completion str) :=
  match fuel with
  | O => None
  | S n =>
      match v with
      | VNull => Some (Return (lit "null"))
      | VBool b => Some (Return (if b then lit "true" else lit "false"))
      | VNumber x => Some (Return (numberToString x))
      | VString s => Some (Return (quote s))
      | VRef a =>
          match h !! a with
          | None => None
          | Some obj =>
              if bool_decide (a ∈ stack) then Some (Throw circularError)
              else
                match serializeMembers
                        (fun seen x =>
                           match stringifyProperty n h gap (indent ++ gap)
                                   (a :: stack) x with
                           | Some r => Some (r, seen)
                           | None => None
                           end)
                        (if isEmpty gap then lit ":" else lit ": ")
                        (members obj) ∅ with
                | None => None
                | Some (Throw e, _) => Some (Throw e)
                | Some (Return partial, _) =>
                    Some (Return (wrap obj gap indent (indent ++ gap) partial))
                end
          end
      end
  end.

Definition JSON_stringify (h : gmap nat object) (v : value) (indent : nat)
  : option (completion str) :=
  stringifyProperty (S (size h)) h (spaces (Nat.min indent 10)) [] [] v.

(** The addresses of the arrays and objects that a traversal of the value
    reaches, in the order of the visits and with repetitions. *)
Fixpoint visitsMembers (vis : value -> option (list nat))
    (ms : list (option str * value)) : option (list nat) :=
  match ms with
  | [] => Some []
  | (_, x) :: rest =>
      match vis x, visitsMembers vis rest with
      | Some l, Some l' => Some (l ++ l')
      | _, _ => None
      end
  end.

Fixpoint visits (fuel : nat) (h : gmap nat object) (v : value)
  : option (list nat) :=
  match fuel with
  | O => None
  | S n =>
      match v with
      | VRef a =>
          match h !! a with
          | Some obj => cons a <$> visitsMembers (visits n h) (members obj)
          | None => None
          end
      | _ => Some []
      end
  end.

(** * Definitions for the statements *)

(** Three objects, none of them shared: an array of two distinct empty
    objects. *)
Definition treeHeap : gmap nat object :=
  <[0%nat := OArray [VRef 1; VRef 2]]>
    (<[1%nat := OObject []]> (<[2%nat := OObject []]> ∅)).


(** ** Inputs *)

(** A pretty-printed object whose third line is corrupt. *)
Definition corruptDocument : str := lit "{
'a': 1,
'b': {oops},
'c': 3
}".

(** The third scenario of the specification. *)
Definition brokenLineDocument : str := lit "{'a': 1,
BROKEN LINE }
'b': 2}".

(** An object that holds itself, directly and through an array. *)
Definition cyclicHeap : gmap nat object :=
  <[0%nat := OObject [(lit "name", VString (lit "a")); (lit "self", VRef 0);
                  (lit "list", VRef 1)]]>
    (<[1%nat := OArray [VNumber (Num 1 0); VRef 0; VRef 1]]> ∅).

(** An array that holds the same empty object twice: no cycle, one shared
    object. *)
Definition sharedHeap : gmap nat object :=
  <[0%nat := OArray [VRef 1; VRef 1]]> (<[1%nat := OObject []]> ∅).

(** ** The selection of [extractJson] *)

Definition valid (parse : str -> parsed) (m : str) : Prop :=
  exists v, parse m = Parsed v.

(** What the loop over the matches leaves in
    [(largestMatch, largestParsed)]: either nothing changed and no match
    that parses is longer than [largestMatch], or the state holds the
    first of the longest matches that parse. *)
Definition selected (parse : str -> parsed) (l : list str)
    (st st' : str * json) : Prop :=
  (st' = st
   /\ forall m, m ∈ l -> valid parse m -> (length m <= length st.1)%nat)
  \/ exists l1 m l2 v,
       l = l1 ++ m :: l2 /\ parse m = Parsed v /\ st' = (m, v)
       /\ (length st.1 < length m)%nat
       /\ (forall m', m' ∈ l1 -> valid parse m' -> (length m' < length m)%nat)
       /\ (forall m', m' ∈ l2 -> valid parse m' -> (length m' <= length m)%nat).

(** The candidates with their start offsets. *)
Definition candidatesAt (text : str) : list (nat * str) :=
  matchesAt objectPattern text ++ matchesAt arrayPattern text.

(** ** The walk that the patterns amount to

    A pattern of [extractJson] is three repetitions of one shape, each
    inside the star of the one before. *)

Fixpoint nest (o c : N) (n : nat) : regex :=
  level o c (match n with
             | O => None
             | S m => Some (nest o c m)
             end).

(** The operand of the star at a level with [room] levels inside. *)
Definition inside (o c : N) (room : nat) : regex :=
  match room with
  | O => NoneOf [o; c]
  | S m => Alt (NoneOf [o; c]) (nest o c m)
  end.

(** The depth-counting walk that the patterns amount to. [closing o c
    depth room s] reads [s] with [depth] delimiters [o] open and room for
    [room] more: [o] opens one more level if there is room and gives up
    otherwise, [c] closes one, any other code unit (a quotation mark
    included) is passed over. It answers the text after the delimiter that
    closes the last open level. *)
Fixpoint closing (o c : N) (depth room : nat) (s : str) : option str :=
  match depth with
  | O => Some s
  | S d =>
      match s with
      | [] => None
      | x :: r =>
          if x =? c then closing o c d (S room) r
          else if x =? o then
            match room with
            | O => None
            | S room' => closing o c (S depth) room' r
            end
          else closing o c depth room r
      end
  end.

(** One attempt of the walk at the head of the text, with [room] levels
    allowed inside the outermost one. *)
Definition walkAt (o c : N) (room : nat) (s : str) : option str :=
  match s with
  | x :: r => if x =? o then closing o c 1 room r else None
  | [] => None
  end.

(** The successive matches of the walk limited to three levels. *)
Definition walkMatches (o c : N) (text : str) : list str :=
  map snd (scanFrom (walkAt o c 2) (S (length text)) 0 text).

(** The deepest nesting of the delimiters [o] and [c] in [s], read with
    [depth] of them open: [o] opens a level, [c] closes one, any other
    code unit leaves the depth as it is. *)
Fixpoint nesting (o c : N) (depth : nat) (s : str) : nat :=
  match s with
  | [] => depth
  | x :: r =>
      if x =? c then Nat.max depth (nesting o c (Nat.pred depth) r)
      else if x =? o then nesting o c (S depth) r
      else nesting o c depth r
  end.

(** Sequencing of two partial steps. *)
Definition andThen (x : option str) (k : str -> option str) : option str :=
  match x with
  | Some s => k s
  | None => None
  end.

(** ** The scan of the specification

    The balance scan in the words of the specification: a walk from an
    opening delimiter that keeps the stack of the delimiters still to be
    closed, to any depth, and passes over the inside of quoted strings,
    escaped quotation marks included. *)

Fixpoint balancedEnd (stack : list N) (inStr esc : bool) (s : str)
  : option str :=
  match s with
  | [] => None
  | x :: r =>
      if inStr then
        if esc then balancedEnd stack true false r
        else if x =? 92 then balancedEnd stack true true r
        else if x =? 34 then balancedEnd stack false false r
        else balancedEnd stack true false r
      else if x =? 34 then balancedEnd stack true false r
      else if x =? 123 then balancedEnd (125 :: stack) false false r
      else if x =? 91 then balancedEnd (93 :: stack) false false r
      else if (x =? 125) || (x =? 93) then
        match stack with
        | top :: below =>
            if x =? top then
              match below with
              | [] => Some r
              | _ :: _ => balancedEnd below false false r
              end
            else None
        | [] => None
        end
      else balancedEnd stack false false r
  end.

Definition balancedAt (s : str) : option str :=
  match s with
  | x :: r =>
      if x =? 123 then balancedEnd [125] false false r
      else if x =? 91 then balancedEnd [93] false false r
      else None
  | [] => None
  end.

(** Every substring that opens with a brace or a square bracket and closes
    with the delimiter that balances it. *)
Fixpoint balancedSubstrings (s : str) : list str :=
  match s with
  | [] => []
  | _ :: r =>
      match balancedAt s with
      | Some rest => [take (length s - length rest) s]
      | None => []
      end ++ balancedSubstrings r
  end.

(** ** The claims that fail, as the specification states them *)

(** C3 as the specification states it: [findJsonFragments] raises exactly
    when the input is longer than the maximum. *)
Definition size_guard_claim (text : str) : Prop :=
  (exists m, findJsonFragments text = Throw m) <-> (str_length text > maxSize)%Z.

(** C2 as the specification states it: on valid JSON text the result is
    the parsed value with no warnings. *)
Definition valid_text_claim (text : str) : Prop :=
  forall v, JSON_parse text = Parsed v -> findJsonFragments text = Return (v, []).

(** C5 as the specification states it: the returned value is the parse of
    the longest candidate that parses, and among candidates of that length
    the one that starts first in the text. *)
Definition longest_earliest_claim (text : str) : Prop :=
  forall v, extractJson text = Return v -> v <> JNull ->
  exists off m,
    (off, m) ∈ candidatesAt text /\ JSON_parse m = Parsed v
    /\ forall off' m',
         (off', m') ∈ candidatesAt text -> valid JSON_parse m' ->
         (length m' < length m)%nat
         \/ (length m' = length m /\ (off <= off')%nat).

(** C8 as the specification states it: the value is none and the last
    warning says that no valid JSON was found (or could be recovered). *)
Definition no_json_claim (text : str) : Prop :=
  exists w final,
    findJsonFragments text = Return (JNull, w) /\ last w = Some final
    /\ includes (lit "valid JSON") final = true.

(** C1 as the specification states it: every balanced substring, and so
    every embedded JSON object or array, is among the candidates. *)
Definition embedded_fragment_claim (text : str) : Prop :=
  forall frag,
    frag ∈ balancedSubstrings text -> valid JSON_parse frag ->
    frag ∈ candidates text.

(** C6 as the specification states it: parsing the text of an acyclic
    value gives the value back. *)
Definition round_trip_claim (h : gmap nat object) (v : value) : Prop :=
  forall t, acyclicTree h v = Some t ->
  exists s, safeStringify h v 2 = Some (Return s) /\ JSON_parse s = Parsed t.

(** * Properties *)

(** ** Blank input and the size guard *)

Lemma isEmpty_true (s : str) : isEmpty s = true <-> s = [].
Proof. destruct s; simpl; split; congruence. Qed.

Lemma isEmpty_false (s : str) : isEmpty s = false <-> s <> [].
Proof. destruct s; simpl; split; congruence. Qed.

Lemma trimStart_spaces (n : nat) (s : str) :
  trimStart (spaces n ++ s) = trimStart s.
Proof. unfold spaces. induction n as [|n IH]; simpl; auto. Qed.

Lemma trim_spaces (n : nat) : trim (spaces n) = [].
Proof.
  unfold trim. rewrite <- (app_nil_r (spaces n)), trimStart_spaces.
  reflexivity.
Qed.

Lemma str_length_spaces (n : nat) (s : str) :
  str_length (spaces n ++ s) = (Z.of_nat n + str_length s)%Z.
Proof. unfold str_length, spaces. rewrite length_app, repeat_length. lia. Qed.

Section EngineFacts.

Variable parse : str -> parsed.

Lemma extractJsonWith_blank (text : str) :
  trim text = [] -> extractJsonWith parse text = Return JNull.
Proof. intros H. unfold extractJsonWith. now rewrite H. Qed.

Lemma findJsonFragmentsWith_blank (text : str) :
  trim text = [] -> findJsonFragmentsWith parse text = Return (JNull, []).
Proof. intros H. unfold findJsonFragmentsWith. now rewrite H. Qed.

Lemma extractJsonWith_oversize (text : str) :
  trim text <> [] -> (str_length text > maxSize)%Z ->
  extractJsonWith parse text = Throw sizeError.
Proof.
  intros Hne Hlen. unfold extractJsonWith.
  apply isEmpty_false in Hne. rewrite Hne.
  destruct (Z.gtb_spec (str_length text) maxSize); [reflexivity | lia].
Qed.

Lemma findJsonFragmentsWith_oversize (text : str) :
  trim text <> [] -> (str_length text > maxSize)%Z ->
  findJsonFragmentsWith parse text = Throw sizeError.
Proof.
  intros Hne Hlen. unfold findJsonFragmentsWith.
  apply isEmpty_false in Hne. rewrite Hne.
  destruct (Z.gtb_spec (str_length text) maxSize); [reflexivity | lia].
Qed.

(** Within the limit [extractJson] returns. *)
Lemma extractJsonWith_returns (text : str) :
  (str_length text <= maxSize)%Z ->
  exists v, extractJsonWith parse text = Return v.
Proof.
  intros Hlen. unfold extractJsonWith.
  destruct (isEmpty (trim text)); [eauto |].
  destruct (Z.gtb_spec (str_length text) maxSize); [lia |].
  destruct (parse text); eauto.
Qed.

Lemma findJsonFragmentsWith_returns (text : str) :
  (str_length text <= maxSize)%Z ->
  exists r, findJsonFragmentsWith parse text = Return r.
Proof.
  intros Hlen. unfold findJsonFragmentsWith.
  destruct (isEmpty (trim text)); [eauto |].
  destruct (Z.gtb_spec (str_length text) maxSize); [lia |].
  destruct (extractJsonWith_returns text Hlen) as [x Hx].
  destruct (parse text); [eauto |].
  destruct (shape text) as [isObject isArray].
  rewrite Hx.
  destruct (negb isObject && negb isArray); [eauto |].
  destruct (parse _); [eauto |].
  destruct (truthy x); eauto.
Qed.

End EngineFacts.

(** Oversize blank text: the emptiness check comes first. *)
Lemma blank_oversize_returns (parse : str -> parsed) (n : nat) :
  (Z.of_nat n > maxSize)%Z ->
  (str_length (spaces n) > maxSize)%Z
  /\ findJsonFragmentsWith parse (spaces n) = Return (JNull, [])
  /\ extractJsonWith parse (spaces n) = Return JNull.
Proof.
  intros Hn. split; [| split].
  - unfold str_length, spaces. rewrite repeat_length. exact Hn.
  - apply findJsonFragmentsWith_blank, trim_spaces.
  - apply extractJsonWith_blank, trim_spaces.
Qed.

(** C10. For every input that is empty or consists only of whitespace,
    [findJsonFragments] returns the value null with no warnings and
    [extractJson] returns null, whatever the length of the input: the
    emptiness check comes before the size guard. *)
Theorem blank_input_is_null (text : str) :
  trim text = [] ->
  findJsonFragments text = Return (JNull, [])
  /\ extractJson text = Return JNull.
Proof.
  intros H. split.
  - now apply findJsonFragmentsWith_blank.
  - now apply extractJsonWith_blank.
Qed.

Lemma blank_input_is_null_witness :
  trim (lit "   ") = []
  /\ findJsonFragments (lit "   ") = Return (JNull, [])
  /\ extractJson (lit "   ") = Return JNull.
Proof.
  split; [reflexivity | apply (blank_input_is_null (lit "   ")); reflexivity].
Defined.

Lemma size_guard_claim_fails_on_spaces (n : nat) :
  (Z.of_nat n > maxSize)%Z -> ~ size_guard_claim (spaces n).
Proof.
  intros Hn [_ H].
  destruct (blank_oversize_returns JSON_parse n Hn) as (Hlen & Hret & _).
  destruct (H Hlen) as [m Hm].
  unfold findJsonFragments in Hm. congruence.
Qed.

(** C3 fails as stated: ten million and one spaces are longer than the
    maximum, and [findJsonFragments] returns on them. *)
Lemma size_guard_counterexample :
  ~ size_guard_claim (spaces (Z.to_nat 10000001)).
Proof.
  apply size_guard_claim_fails_on_spaces.
  rewrite Z2Nat.id; unfold maxSize; lia.
Qed.

(** C3, amended. [findJsonFragments] raises exactly when the input is not
    blank and is longer than 10,000,000 code units; the error is the size
    error, and it is raised whatever the parser would answer, that is,
    before any parsing. Every other input returns a result. *)
Theorem size_guard_throws_iff (parse : str -> parsed) (text : str) :
  (findJsonFragmentsWith parse text = Throw sizeError
   <-> trim text <> [] /\ (str_length text > maxSize)%Z)
  /\ (forall m, findJsonFragmentsWith parse text = Throw m -> m = sizeError).
Proof.
  assert (Hcases : (trim text <> [] /\ (str_length text > maxSize)%Z)
                   \/ trim text = []
                   \/ (str_length text <= maxSize)%Z).
  { destruct (trim text); [auto |].
    destruct (Z_le_gt_dec (str_length text) maxSize); [auto |].
    left. split; [discriminate | assumption]. }
  destruct Hcases as [[Hne Hlen] | [Hblank | Hlen]].
  - rewrite (findJsonFragmentsWith_oversize parse text Hne Hlen).
    split; [tauto | congruence].
  - rewrite (findJsonFragmentsWith_blank parse text Hblank).
    split; [| congruence]. split; [congruence |]. intros [Hne _]. contradiction.
  - destruct (findJsonFragmentsWith_returns parse text Hlen) as [r Hr].
    rewrite Hr. split; [| congruence]. split; [congruence | lia].
Qed.

Lemma size_guard_throws_iff_witness :
  findJsonFragmentsWith JSON_parse (lit "{'a':1}") <> Throw sizeError.
Proof.
  intros H.
  apply (proj1 (proj1 (size_guard_throws_iff JSON_parse (lit "{'a':1}")))) in H.
  destruct H as [_ H]. vm_compute in H. discriminate.
Defined.

(** ** Valid JSON text *)

Lemma trimStart_head (s : str) (c : N) (r : str) :
  trimStart s = c :: r -> isWhiteSpace c = false.
Proof.
  induction s as [|x s IH]; simpl; [discriminate |].
  destruct (isWhiteSpace x) eqn:E; [exact IH |].
  intros [= -> _]. exact E.
Qed.

Lemma trimStart_nil (s : str) :
  trimStart s = [] -> Forall (fun c => isWhiteSpace c = true) s.
Proof.
  induction s as [|x s IH]; simpl; [constructor |].
  destruct (isWhiteSpace x) eqn:E; [| discriminate].
  intros H. constructor; auto.
Qed.

Lemma trim_nil (s : str) :
  trim s = [] -> Forall (fun c => isWhiteSpace c = true) s.
Proof.
  unfold trim, trimEnd. intros H. apply trimStart_nil.
  destruct (trimStart s) as [|c r] eqn:E; [reflexivity |].
  apply trimStart_head in E.
  apply (f_equal (@rev N)) in H. rewrite rev_involutive in H. simpl in H.
  apply trimStart_nil in H. apply Forall_app in H as [_ H].
  inversion H; congruence.
Qed.

Lemma skipWs_blank (s : str) :
  Forall (fun c => isWhiteSpace c = true) s ->
  Forall (fun c => isWhiteSpace c = true) (skipWs s).
Proof.
  induction 1 as [|x s Hx Hs IH]; simpl; [constructor |].
  destruct (isJsonWs x); [exact IH | constructor; assumption].
Qed.

(** No JSON value starts with a whitespace code unit. *)
Lemma parseValue_whitespace (depth : nat) (c : N) (r : str) :
  isWhiteSpace c = true -> parseValue depth (c :: r) = None.
Proof.
  intros H. unfold isWhiteSpace in H.
  rewrite !orb_true_iff, !andb_true_iff, !N.eqb_eq, !N.leb_le in H.
  destruct depth as [|n]; [reflexivity |]. cbn [parseValue].
  assert (E : forall k, c <> k -> (c =? k) = false) by (intros; now apply N.eqb_neq).
  rewrite !E by lia.
  unfold isDigit. destruct (N.leb_spec 48 c); destruct (N.leb_spec c 57);
    simpl; try reflexivity; lia.
Qed.

Lemma JSON_parse_blank (text : str) :
  trim text = [] -> JSON_parse text = SyntaxError syntaxErrorMessage.
Proof.
  intros H. apply trim_nil, skipWs_blank in H. unfold JSON_parse.
  destruct (skipWs text) as [|c r]; [reflexivity |].
  inversion H; subst. now rewrite parseValue_whitespace.
Qed.

Lemma skipWs_spaces (n : nat) (s : str) : skipWs (spaces n ++ s) = skipWs s.
Proof. unfold spaces. induction n as [|n IH]; simpl; auto. Qed.

Lemma JSON_parse_spaces_one (n : nat) :
  JSON_parse (spaces n ++ lit "1") = Parsed (JNumber (Num 1 0)).
Proof. unfold JSON_parse. rewrite skipWs_spaces. reflexivity. Qed.

Lemma trim_spaces_one (n : nat) : trim (spaces n ++ lit "1") = lit "1".
Proof. unfold trim. rewrite trimStart_spaces. reflexivity. Qed.

Lemma valid_text_claim_fails_when_oversize (n : nat) :
  (Z.of_nat n >= maxSize)%Z -> ~ valid_text_claim (spaces n ++ lit "1").
Proof.
  intros Hn H. specialize (H _ (JSON_parse_spaces_one n)).
  unfold findJsonFragments in H.
  rewrite findJsonFragmentsWith_oversize in H; [discriminate | |].
  - rewrite trim_spaces_one. discriminate.
  - rewrite str_length_spaces. unfold str_length. simpl length. lia.
Qed.

(** C2 fails as stated: the numeral 1 after ten million spaces is valid
    JSON text, and [findJsonFragments] raises the size error on it. *)
Lemma valid_text_counterexample :
  ~ valid_text_claim (spaces (Z.to_nat 10000000) ++ lit "1").
Proof.
  apply valid_text_claim_fails_when_oversize.
  rewrite Z2Nat.id; unfold maxSize; lia.
Qed.

(** C2, amended. For every syntactically valid JSON text of at most
    10,000,000 code units, [findJsonFragments] returns the value of
    [JSON.parse] on the text together with an empty warning list. *)
Theorem valid_text_is_parsed (text : str) (v : json) :
  (str_length text <= maxSize)%Z ->
  JSON_parse text = Parsed v ->
  findJsonFragments text = Return (v, []).
Proof.
  intros Hlen Hv. unfold findJsonFragments, findJsonFragmentsWith.
  destruct (isEmpty (trim text)) eqn:E.
  - apply isEmpty_true, JSON_parse_blank in E. congruence.
  - destruct (Z.gtb_spec (str_length text) maxSize); [lia |].
    now rewrite Hv.
Qed.

Lemma valid_text_is_parsed_witness :
  (str_length (lit "{'a':1,'b':[1,2,3]}") <= maxSize)%Z
  /\ JSON_parse (lit "{'a':1,'b':[1,2,3]}")
     = Parsed (JObject [(lit "a", JNumber (Num 1 0));
                        (lit "b", JArray [JNumber (Num 1 0); JNumber (Num 2 0);
                                          JNumber (Num 3 0)])])
  /\ findJsonFragments (lit "{'a':1,'b':[1,2,3]}")
     = Return (JObject [(lit "a", JNumber (Num 1 0));
                        (lit "b", JArray [JNumber (Num 1 0); JNumber (Num 2 0);
                                          JNumber (Num 3 0)])], []).
Proof.
  split; [vm_compute; discriminate | split; [reflexivity |]].
  apply (valid_text_is_parsed (lit "{'a':1,'b':[1,2,3]}")); [vm_compute; discriminate | reflexivity].
Defined.

(** ** The bound of the parser

    Every parser of a part of a value consumes at least one code unit, so
    the bound of [parseValue] is never reached once it exceeds the length
    of the text: a syntax error of the model is never an exhausted
    bound. *)

Lemma skipWs_length (s : str) : (length (skipWs s) <= length s)%nat.
Proof.
  induction s as [|c r IH]; simpl; [lia |].
  destruct (isJsonWs c); simpl; lia.
Qed.

Lemma parseChars_shorter (n : nat) :
  forall s t rest,
    (length s <= n)%nat -> parseChars s = Some (t, rest) ->
    (length rest < length s)%nat.
Proof.
  induction n as [|n IH]; intros s t rest Hn H.
  { destruct s; [discriminate | simpl in Hn; lia]. }
  destruct s as [|c r]; [discriminate |]. simpl in Hn. cbn [parseChars] in H.
  destruct (c =? 34); [injection H as _ <-; simpl; lia |].
  destruct (c =? 92).
  - destruct r as [|e r']; [discriminate |]. simpl in Hn.
    destruct (e =? 117).
    + destruct r' as [|h1 [|h2 [|h3 [|h4 r'']]]]; try discriminate.
      destruct (hex4 h1 h2 h3 h4); [| discriminate].
      destruct (parseChars r'') as [[t' rest'] |] eqn:E; [| discriminate].
      injection H as _ <-. apply IH in E; simpl in *; lia.
    + destruct (unescape e); [| discriminate].
      destruct (parseChars r') as [[t' rest'] |] eqn:E; [| discriminate].
      injection H as _ <-. apply IH in E; simpl in *; lia.
  - destruct (c <? 32); [discriminate |].
    destruct (parseChars r) as [[t' rest'] |] eqn:E; [| discriminate].
    injection H as _ <-. apply IH in E; simpl in *; lia.
Qed.

Lemma spanDigits_length (s : str) :
  forall ds rest,
    spanDigits s = (ds, rest) -> length s = (length ds + length rest)%nat.
Proof.
  induction s as [|c r IH]; intros ds rest; simpl.
  - intros [= <- <-]. reflexivity.
  - destruct (isDigit c).
    + destruct (spanDigits r) as [ds' rest'] eqn:E.
      intros [= <- <-]. simpl. now rewrite (IH ds' rest').
    + intros [= <- <-]. reflexivity.
Qed.

Lemma parseSign_length (s : str) : (length (parseSign s).2 <= length s)%nat.
Proof. destruct s as [|c r]; simpl; [lia |]. destruct (c =? 45); simpl; lia. Qed.

Lemma parseInt_shorter (s ip rest : str) :
  parseInt s = Some (ip, rest) -> (length rest < length s)%nat.
Proof.
  destruct s as [|c r]; [discriminate |]. cbn [parseInt].
  destruct (c =? 48); [intros [= _ <-]; simpl; lia |].
  destruct (spanDigits (c :: r)) as [[|d ds] rest'] eqn:E; [discriminate |].
  intros [= _ <-]. apply spanDigits_length in E. simpl in *. lia.
Qed.

Lemma parseFrac_length (s fd rest : str) :
  parseFrac s = Some (fd, rest) -> (length rest <= length s)%nat.
Proof.
  destruct s as [|c r]; [intros [= _ <-]; lia |]. cbn [parseFrac].
  destruct (c =? 46); [| intros [= _ <-]; lia].
  destruct (spanDigits r) as [[|d ds] rest'] eqn:E; [discriminate |].
  intros [= _ <-]. apply spanDigits_length in E. simpl in *. lia.
Qed.

Lemma parseExp_length (s : str) (e : Z) (rest : str) :
  parseExp s = Some (e, rest) -> (length rest <= length s)%nat.
Proof.
  destruct s as [|c r]; [intros [= _ <-]; lia |]. cbn [parseExp].
  destruct ((c =? 101) || (c =? 69)); [| intros [= _ <-]; lia].
  assert (Hsign : forall (p : bool * str),
            p = match r with
                | g :: r' => if g =? 45 then (true, r')
                             else if g =? 43 then (false, r') else (false, r)
                | [] => (false, r)
                end -> (length p.2 <= length r)%nat).
  { intros p ->. destruct r as [|g r']; simpl; [lia |].
    destruct (g =? 45); [simpl; lia |]. destruct (g =? 43); simpl; lia. }
  specialize (Hsign _ eq_refl). destruct (match r with [] => _ | _ => _ end) as [eneg r1].
  simpl in Hsign.
  destruct (spanDigits r1) as [[|d ds] rest'] eqn:E; [discriminate |].
  intros [= _ <-]. apply spanDigits_length in E. simpl in *. lia.
Qed.

Lemma parseNumber_shorter (s : str) (x : number) (rest : str) :
  parseNumber s = Some (x, rest) -> (length rest < length s)%nat.
Proof.
  unfold parseNumber. pose proof (parseSign_length s) as Hs.
  destruct (parseSign s) as [neg s1]. simpl in Hs.
  destruct (parseInt s1) as [[ip s2] |] eqn:Ei; [| discriminate].
  destruct (parseFrac s2) as [[fd s3] |] eqn:Ef; [| discriminate].
  destruct (parseExp s3) as [[e s4] |] eqn:Ee; [| discriminate].
  intros [= _ <-].
  apply parseInt_shorter in Ei. apply parseFrac_length in Ef.
  apply parseExp_length in Ee. lia.
Qed.

Lemma startsWith_length (w s : str) :
  startsWith w s = true -> (length w <= length s)%nat.
Proof.
  revert s. induction w as [|a w IH]; intros s; simpl; [lia |].
  destruct s as [|b s]; [discriminate |].
  intros H. apply andb_true_iff in H as [_ H]. apply IH in H. simpl. lia.
Qed.

Lemma keyword_shorter (w : str) (v x : json) (s rest : str) :
  w <> [] -> keyword w v s = Some (x, rest) -> (length rest < length s)%nat.
Proof.
  unfold keyword. intros Hw.
  destruct (startsWith w s) eqn:E; [| discriminate].
  intros [= _ <-]. apply startsWith_length in E.
  rewrite length_drop. destruct w; [congruence | simpl in *; lia].
Qed.

Section ParserLoops.

Variables pv pv' : str -> option (json * str).

Hypothesis pv_shorter :
  forall s v rest, pv s = Some (v, rest) -> (length rest < length s)%nat.

Lemma parseElements_shorter (k : nat) :
  forall s acc v rest,
    parseElements pv k s acc = Some (v, rest) -> (length rest < length s)%nat.
Proof.
  induction k as [|k IH]; intros s acc v rest; cbn [parseElements]; [discriminate |].
  destruct (pv s) as [[x s1] |] eqn:E; [| discriminate].
  apply pv_shorter in E. pose proof (skipWs_length s1) as H1.
  destruct (skipWs s1) as [|d s2]; [discriminate |]. simpl in H1.
  destruct (d =? 44).
  - intros H. apply IH in H. pose proof (skipWs_length s2). lia.
  - destruct (d =? 93); [| discriminate]. intros [= _ <-]. lia.
Qed.

Lemma parseMembers_shorter (k : nat) :
  forall s acc v rest,
    parseMembers pv k s acc = Some (v, rest) -> (length rest < length s)%nat.
Proof.
  induction k as [|k IH]; intros s acc v rest; cbn [parseMembers]; [discriminate |].
  destruct s as [|q s0]; [discriminate |].
  destruct (q =? 34); [| discriminate].
  destruct (parseChars s0) as [[key s1] |] eqn:Ek; [| discriminate].
  apply (parseChars_shorter (length s0)) in Ek; [| lia].
  pose proof (skipWs_length s1) as H1.
  destruct (skipWs s1) as [|colon s2]; [discriminate |]. simpl in H1.
  destruct (colon =? 58); [| discriminate].
  pose proof (skipWs_length s2) as H2.
  destruct (pv (skipWs s2)) as [[x s3] |] eqn:E; [| discriminate].
  apply pv_shorter in E. pose proof (skipWs_length s3) as H3.
  destruct (skipWs s3) as [|d s4]; [discriminate |]. simpl in H3.
  destruct (d =? 44).
  - intros H. apply IH in H. pose proof (skipWs_length s4). simpl. lia.
  - destruct (d =? 125); [| discriminate]. intros [= _ <-]. simpl. lia.
Qed.

Lemma parseElements_bound (k : nat) :
  forall k' s acc,
    (length s < k)%nat -> (length s < k')%nat ->
    (forall s', (length s' <= length s)%nat -> pv s' = pv' s') ->
    parseElements pv k s acc = parseElements pv' k' s acc.
Proof.
  induction k as [|k IH]; intros k' s acc Hk Hk' Hpv; [lia |].
  destruct k' as [|k']; [lia |]. cbn [parseElements].
  rewrite <- Hpv by lia.
  destruct (pv s) as [[x s1] |] eqn:E; [| reflexivity].
  apply pv_shorter in E. pose proof (skipWs_length s1) as H1.
  destruct (skipWs s1) as [|d s2]; [reflexivity |]. simpl in H1.
  destruct (d =? 44); [| reflexivity].
  pose proof (skipWs_length s2).
  apply IH; try lia. intros s' Hs'. apply Hpv. lia.
Qed.

Lemma parseMembers_bound (k : nat) :
  forall k' s acc,
    (length s < k)%nat -> (length s < k')%nat ->
    (forall s', (length s' <= length s)%nat -> pv s' = pv' s') ->
    parseMembers pv k s acc = parseMembers pv' k' s acc.
Proof.
  induction k as [|k IH]; intros k' s acc Hk Hk' Hpv; [lia |].
  destruct k' as [|k']; [lia |]. cbn [parseMembers].
  destruct s as [|q s0]; [reflexivity |]. simpl in Hk, Hk'.
  destruct (q =? 34); [| reflexivity].
  destruct (parseChars s0) as [[key s1] |] eqn:Ek; [| reflexivity].
  apply (parseChars_shorter (length s0)) in Ek; [| lia].
  pose proof (skipWs_length s1) as H1.
  destruct (skipWs s1) as [|colon s2]; [reflexivity |]. simpl in H1.
  destruct (colon =? 58); [| reflexivity].
  pose proof (skipWs_length s2) as H2.
  rewrite <- Hpv by (simpl; lia).
  destruct (pv (skipWs s2)) as [[x s3] |] eqn:E; [| reflexivity].
  apply pv_shorter in E. pose proof (skipWs_length s3) as H3.
  destruct (skipWs s3) as [|d s4]; [reflexivity |]. simpl in H3.
  destruct (d =? 44); [| reflexivity].
  pose proof (skipWs_length s4).
  apply IH; try lia. intros s' Hs'. apply Hpv. simpl. lia.
Qed.

End ParserLoops.

Lemma parseValue_shorter (n : nat) :
  forall s v rest,
    parseValue n s = Some (v, rest) -> (length rest < length s)%nat.
Proof.
  induction n as [|n IH]; intros s v rest; cbn [parseValue]; [discriminate |].
  destruct s as [|c r]; [discriminate |].
  pose proof (skipWs_length r) as Hr.
  destruct (c =? 123).
  { destruct (skipWs r) as [|c1 r1] eqn:E; [discriminate |]. simpl in Hr.
    destruct (c1 =? 125); [intros [= _ <-]; simpl; lia |].
    intros H. apply (parseMembers_shorter _ IH) in H. simpl in *. lia. }
  destruct (c =? 91).
  { destruct (skipWs r) as [|c1 r1] eqn:E; [discriminate |]. simpl in Hr.
    destruct (c1 =? 93); [intros [= _ <-]; simpl; lia |].
    intros H. apply (parseElements_shorter _ IH) in H. simpl in *. lia. }
  destruct (c =? 34).
  { destruct (parseChars r) as [[t rest'] |] eqn:E; [| discriminate].
    intros [= _ <-]. apply (parseChars_shorter (length r)) in E; simpl; lia. }
  destruct (c =? 116); [apply keyword_shorter; discriminate |].
  destruct (c =? 102); [apply keyword_shorter; discriminate |].
  destruct (c =? 110); [apply keyword_shorter; discriminate |].
  destruct ((c =? 45) || isDigit c); [| discriminate].
  destruct (parseNumber (c :: r)) as [[x rest'] |] eqn:E; [| discriminate].
  intros [= _ <-]. now apply parseNumber_shorter in E.
Qed.

(** Any two bounds above the length of the text give the same result. *)
Lemma parseValue_bound (n : nat) :
  forall m s,
    (length s < n)%nat -> (length s < m)%nat -> parseValue n s = parseValue m s.
Proof.
  induction n as [|n IH]; intros m s Hn Hm; [lia |].
  destruct m as [|m]; [lia |]. cbn [parseValue].
  destruct s as [|c r]; [reflexivity |]. simpl in Hn, Hm.
  pose proof (skipWs_length r) as Hr.
  destruct (c =? 123).
  { destruct (skipWs r) as [|c1 r1] eqn:E; [reflexivity |]. simpl in Hr.
    destruct (c1 =? 125); [reflexivity |].
    apply parseMembers_bound; simpl; try lia.
    - apply parseValue_shorter.
    - intros s' Hs'. apply IH; simpl in Hs'; lia. }
  destruct (c =? 91); [| reflexivity].
  destruct (skipWs r) as [|c1 r1] eqn:E; [reflexivity |]. simpl in Hr.
  destruct (c1 =? 93); [reflexivity |].
  apply parseElements_bound; simpl; try lia.
  - apply parseValue_shorter.
  - intros s' Hs'. apply IH; simpl in Hs'; lia.
Qed.

(** [JSON.parse] does not depend on its bound. *)
Lemma JSON_parse_bound (n : nat) (text : str) :
  (length text < n)%nat ->
  parseValue n (skipWs text) = parseValue (S (length text)) (skipWs text).
Proof.
  intros Hn. pose proof (skipWs_length text).
  apply parseValue_bound; lia.
Qed.

(** ** The selection loop of [extractJson] *)

Section Selection.

Variable parse : str -> parsed.

Lemma tryMatch_cases (st : str * json) (m : str) :
  (tryMatch parse st m = st /\ (valid parse m -> (length m <= length st.1)%nat))
  \/ exists v, parse m = Parsed v /\ tryMatch parse st m = (m, v)
               /\ (length st.1 < length m)%nat.
Proof.
  unfold tryMatch, valid.
  destruct (Nat.leb_spec (length m) (length st.1)) as [Hle | Hlt].
  - left. auto.
  - destruct (parse m) as [v | e] eqn:E.
    + right. eauto.
    + left. split; [reflexivity |]. intros [v Hv]. discriminate.
Qed.

Lemma fold_tryMatch_selected (l : list str) :
  forall st, selected parse l st (fold_left (tryMatch parse) l st).
Proof.
  induction l as [|m0 l IH]; intros st; simpl.
  - left. split; [reflexivity |]. intros m Hm. inversion Hm.
  - destruct (tryMatch_cases st m0) as [[Hst Hskip] | (v0 & Hv0 & Hst & Hlen)];
      rewrite Hst.
    + destruct (IH st)
        as [[Heq Hmax] | (l1 & m & l2 & v & Hl & Hv & Hst' & Hlt & Hbefore & Hafter)].
      * left. split; [assumption |]. intros m Hm Hvalid.
        apply elem_of_cons in Hm as [-> | Hm]; auto.
      * right. exists (m0 :: l1), m, l2, v. repeat split; try assumption.
        -- now rewrite Hl.
        -- intros m' Hm' Hvalid. apply elem_of_cons in Hm' as [-> | Hm']; auto.
           specialize (Hskip Hvalid). lia.
    + destruct (IH (m0, v0))
        as [[Heq Hmax] | (l1 & m & l2 & v & Hl & Hv & Hst' & Hlt & Hbefore & Hafter)].
      * right. exists [], m0, l, v0. repeat split; try assumption.
        intros m' Hm'. inversion Hm'.
      * right. simpl in Hlt. exists (m0 :: l1), m, l2, v.
        repeat split; try assumption.
        -- now rewrite Hl.
        -- lia.
        -- intros m' Hm' Hvalid. apply elem_of_cons in Hm' as [-> | Hm']; auto.
Qed.

End Selection.

Lemma candidates_offsets (text : str) :
  candidates text = map snd (candidatesAt text).
Proof. unfold candidates, candidatesAt, String_match. now rewrite map_app. Qed.

Section Returned.

Variable parse : str -> parsed.

(** When the whole text does not parse, [extractJson] returns what the
    loop over the candidates selects. *)
Lemma extractJsonWith_fallback (text : str) (e : str) :
  trim text <> [] -> (str_length text <= maxSize)%Z ->
  parse text = SyntaxError e ->
  extractJsonWith parse text
  = Return (fold_left (tryMatch parse) (candidates text) ([], JNull)).2.
Proof.
  intros Hne Hlen He. unfold extractJsonWith.
  apply isEmpty_false in Hne. rewrite Hne.
  destruct (Z.gtb_spec (str_length text) maxSize); [lia |].
  rewrite He. unfold candidates. rewrite fold_left_app. reflexivity.
Qed.

Lemma extractJsonWith_inv (text : str) (v : json) :
  extractJsonWith parse text = Return v -> v <> JNull ->
  trim text <> [] /\ (str_length text <= maxSize)%Z
  /\ (parse text = Parsed v
      \/ (exists e, parse text = SyntaxError e)
         /\ v = (fold_left (tryMatch parse) (candidates text) ([], JNull)).2).
Proof.
  intros H Hv.
  destruct (decide (trim text = [])) as [Ht | Hne].
  { rewrite extractJsonWith_blank in H by assumption. congruence. }
  destruct (Z_le_gt_dec (str_length text) maxSize) as [Hlen | Hlen].
  2:{ rewrite extractJsonWith_oversize in H by assumption. discriminate. }
  split; [assumption | split; [assumption |]].
  destruct (parse text) as [v0 | e] eqn:E.
  - left. unfold extractJsonWith in H. apply isEmpty_false in Hne.
    rewrite Hne in H.
    destruct (Z.gtb_spec (str_length text) maxSize); [lia |].
    rewrite E in H. congruence.
  - right. split; [eauto |].
    rewrite (extractJsonWith_fallback text e) in H by assumption.
    congruence.
Qed.

(** The first longest candidate that parses wins. *)
Lemma extractJsonWith_selects (text : str) (v : json) :
  extractJsonWith parse text = Return v -> v <> JNull ->
  parse text = Parsed v
  \/ exists l1 m l2,
       candidates text = l1 ++ m :: l2 /\ parse m = Parsed v
       /\ (forall m', m' ∈ l1 -> valid parse m' -> (length m' < length m)%nat)
       /\ (forall m', m' ∈ l2 -> valid parse m' -> (length m' <= length m)%nat).
Proof.
  intros H Hv.
  destruct (extractJsonWith_inv text v H Hv) as (_ & _ & [Hp | [_ Hsel]]);
    [left; assumption | right].
  destruct (fold_tryMatch_selected parse (candidates text) ([], JNull))
    as [[Heq _] | (l1 & m & l2 & v' & Hl & Hm & Hst & _ & Hbefore & Hafter)].
  - rewrite Heq in Hsel. simpl in Hsel. contradiction.
  - rewrite Hst in Hsel. simpl in Hsel. subst v'.
    exists l1, m, l2. auto.
Qed.

Lemma extractJsonWith_parsed (text : str) (v : json) :
  extractJsonWith parse text = Return v -> v <> JNull ->
  exists s, (s = text \/ s ∈ candidates text) /\ parse s = Parsed v.
Proof.
  intros H Hv.
  destruct (extractJsonWith_selects text v H Hv)
    as [Hp | (l1 & m & l2 & Hl & Hm & _)].
  - exists text. auto.
  - exists m. split; [right | assumption].
    rewrite Hl. apply elem_of_app. right. apply elem_of_cons. auto.
Qed.

Lemma findJsonFragmentsWith_parsed (text : str) (v : json) (w : list str) :
  findJsonFragmentsWith parse text = Return (v, w) -> v <> JNull ->
  exists s,
    (s = text \/ s ∈ candidates text
     \/ exists w0, s = reconstructed parse w0 text)
    /\ parse s = Parsed v.
Proof.
  unfold findJsonFragmentsWith. intros H Hv.
  destruct (isEmpty (trim text)); [congruence |].
  destruct (str_length text >? maxSize)%Z; [discriminate |].
  destruct (parse text) as [v0 | e] eqn:E.
  { exists text. split; [auto | congruence]. }
  unfold reconstructed.
  destruct (shape text) as [isObject isArray].
  destruct (negb isObject && negb isArray).
  - destruct (extractJsonWith parse text) as [x |] eqn:Hx; [| discriminate].
    injection H as <- _.
    destruct (extractJsonWith_parsed text x Hx Hv) as (s & [Hs | Hs] & Hp);
      exists s; auto.
  - destruct (parse (reconstruct _ _ _ _)) as [result | e'] eqn:Hr.
    + injection H as <- _. eexists. split; [right; right; eexists; reflexivity |].
      exact Hr.
    + destruct (extractJsonWith parse text) as [x |] eqn:Hx; [| discriminate].
      destruct (truthy x); injection H as <- _; [| congruence].
      destruct (extractJsonWith_parsed text x Hx Hv) as (s & [Hs | Hs] & Hp);
        exists s; auto.
Qed.

End Returned.

(** C9. Every non-null value returned by [extractJson] or by
    [findJsonFragments] is the result of [JSON.parse] on a text that the
    call handed to it: the input itself, one of the candidate fragments
    or, for [findJsonFragments], the text rebuilt by the second pass. *)
Theorem returned_value_was_parsed (text : str) (v : json) :
  v <> JNull ->
  (extractJson text = Return v ->
   exists s, (s = text \/ s ∈ candidates text) /\ JSON_parse s = Parsed v)
  /\ (forall w, findJsonFragments text = Return (v, w) ->
      exists s,
        (s = text \/ s ∈ candidates text
         \/ exists w0, s = reconstructed JSON_parse w0 text)
        /\ JSON_parse s = Parsed v).
Proof.
  intros Hv. split.
  - intros H. now apply extractJsonWith_parsed.
  - intros w H. now apply (findJsonFragmentsWith_parsed JSON_parse text v w).
Qed.

Lemma returned_value_was_parsed_witness :
  JObject [(lit "x", JNumber (Num 5 0))] <> JNull
  /\ exists s,
       (s = lit "Here is data: {'x': 5} end."
        \/ s ∈ candidates (lit "Here is data: {'x': 5} end."))
       /\ JSON_parse s = Parsed (JObject [(lit "x", JNumber (Num 5 0))]).
Proof.
  split; [discriminate |].
  apply (returned_value_was_parsed (lit "Here is data: {'x': 5} end.")
           (JObject [(lit "x", JNumber (Num 5 0))])); [discriminate | reflexivity].
Defined.

(** C5 fails as stated: with an array at offset 0 and an object of the
    same length at offset 8, the object is returned. *)
Lemma longest_earliest_counterexample :
  ~ longest_earliest_claim (lit "[1,2,3] {'a':1}").
Proof.
  intros H.
  destruct (H (JObject [(lit "a", JNumber (Num 1 0))]))
    as (off & m & Hin & Hm & Hmax); [reflexivity | discriminate |].
  assert (Harr : (0%nat, lit "[1,2,3]") ∈ candidatesAt (lit "[1,2,3] {'a':1}")).
  { vm_compute. apply elem_of_cons. right. apply elem_of_cons. left. reflexivity. }
  assert (Hvalid : valid JSON_parse (lit "[1,2,3]")).
  { eexists. reflexivity. }
  specialize (Hmax _ _ Harr Hvalid).
  vm_compute in Hin.
  apply elem_of_cons in Hin as [Hin | Hin].
  - injection Hin as -> ->. vm_compute in Hmax. lia.
  - apply elem_of_cons in Hin as [Hin | Hin]; [| inversion Hin].
    injection Hin as -> ->. vm_compute in Hm. discriminate.
Qed.

(** C5, amended. When [extractJson] returns a non-null value, either the
    whole text parses and the value is its parse, or the value is the
    parse of a candidate that is at least as long as every candidate that
    parses and strictly longer than every such candidate tried before it.
    Candidates are tried in the order of [candidates]: the object-shaped
    matches from left to right, then the array-shaped ones; among the
    longest, the first in that order wins. *)
Theorem first_longest_candidate_wins (text : str) (v : json) :
  extractJson text = Return v -> v <> JNull ->
  JSON_parse text = Parsed v
  \/ exists l1 m l2,
       candidates text = l1 ++ m :: l2 /\ JSON_parse m = Parsed v
       /\ (forall m', m' ∈ l1 -> valid JSON_parse m' -> (length m' < length m)%nat)
       /\ (forall m', m' ∈ l2 -> valid JSON_parse m' -> (length m' <= length m)%nat).
Proof. apply extractJsonWith_selects. Qed.

Lemma first_longest_candidate_wins_witness :
  extractJson (lit "[1,2,3] {'a':1}") = Return (JObject [(lit "a", JNumber (Num 1 0))])
  /\ JObject [(lit "a", JNumber (Num 1 0))] <> JNull
  /\ (JSON_parse (lit "[1,2,3] {'a':1}") = Parsed (JObject [(lit "a", JNumber (Num 1 0))])
      \/ exists l1 m l2,
           candidates (lit "[1,2,3] {'a':1}") = l1 ++ m :: l2
           /\ JSON_parse m = Parsed (JObject [(lit "a", JNumber (Num 1 0))])
           /\ (forall m', m' ∈ l1 -> valid JSON_parse m' -> (length m' < length m)%nat)
           /\ (forall m', m' ∈ l2 -> valid JSON_parse m' -> (length m' <= length m)%nat)).
Proof.
  split; [reflexivity | split; [discriminate |]].
  apply (first_longest_candidate_wins (lit "[1,2,3] {'a':1}")); [reflexivity | discriminate].
Defined.

(** ** Text without brackets *)

Lemma exec_level_head (o c : N) (inner : option regex)
    (k : str -> option str) (s : str) :
  head s <> Some o -> exec (level o c inner) k s = None.
Proof.
  destruct s as [|x r]; simpl; [reflexivity |].
  intros H. destruct (N.eqb_spec x o) as [-> | Hne]; [| reflexivity].
  contradiction.
Qed.

Lemma scanFrom_no_opening (o c : N) (inner : option regex) (n : nat) :
  forall offset s, o ∉ s -> scanFrom (execAt (level o c inner)) n offset s = [].
Proof.
  induction n as [|n IH]; intros offset s Hs; [reflexivity |].
  cbn [scanFrom]. unfold execAt at 1. rewrite exec_level_head.
  - destruct s as [|x r]; [reflexivity |]. apply IH.
    intros H. apply Hs. now apply elem_of_cons; right.
  - destruct s as [|x r]; simpl; [discriminate |].
    intros [= ->]. apply Hs. apply elem_of_cons. now left.
Qed.

Lemma candidates_no_opening (text : str) :
  123 ∉ text -> 91 ∉ text -> candidates text = [].
Proof.
  intros Ho Ha. unfold candidates, String_match, matchesAt.
  unfold objectPattern, arrayPattern.
  now rewrite !scanFrom_no_opening.
Qed.

Lemma trimStart_elem (c : N) (s : str) : c ∈ trimStart s -> c ∈ s.
Proof.
  induction s as [|x s IH]; simpl; [auto |].
  destruct (isWhiteSpace x); [| auto].
  intros H. apply elem_of_cons. right. auto.
Qed.

Lemma trim_elem (c : N) (s : str) : c ∈ trim s -> c ∈ s.
Proof.
  unfold trim, trimEnd. intros H.
  apply trimStart_elem, list_elem_of_In, in_rev, list_elem_of_In, trimStart_elem.
  now apply list_elem_of_In, in_rev, list_elem_of_In.
Qed.

Lemma startsWith_head (c : N) (s : str) : startsWith [c] s = true -> c ∈ s.
Proof.
  destruct s as [|x r]; simpl; [discriminate |].
  rewrite andb_true_r. intros H. apply N.eqb_eq in H as ->.
  apply elem_of_cons. now left.
Qed.

Lemma shape_no_opening (text : str) :
  123 ∉ text -> 91 ∉ text -> shape text = (false, false).
Proof.
  intros Ho Ha. unfold shape.
  destruct (startsWith (lit "{") (trim text)) eqn:E1.
  { exfalso. apply Ho, trim_elem, startsWith_head. exact E1. }
  destruct (startsWith (lit "[") (trim text)) eqn:E2.
  { exfalso. apply Ha, trim_elem, startsWith_head. exact E2. }
  reflexivity.
Qed.

(** C8 fails as stated: on [not json at all] the last warning is that the
    structure could not be determined. *)
Lemma no_json_counterexample : ~ no_json_claim (lit "not json at all").
Proof.
  intros (w & final & Hw & Hlast & Hsays).
  vm_compute in Hw. injection Hw as <-.
  vm_compute in Hlast. injection Hlast as <-.
  vm_compute in Hsays. discriminate.
Qed.

(** C8, amended. For a text that is not blank, is within the size limit,
    fails strict parsing and contains neither an opening brace nor an
    opening square bracket, [findJsonFragments] returns the value null
    with exactly two warnings: the parser's complaint, and last the
    warning that the structure could not be determined. *)
Theorem no_brackets_structure_undetermined (text e : str) :
  trim text <> [] -> (str_length text <= maxSize)%Z ->
  JSON_parse text = SyntaxError e ->
  123 ∉ text -> 91 ∉ text ->
  findJsonFragments text
  = Return (JNull, [lit "Invalid JSON: " ++ e;
                    lit "Could not determine JSON structure"]).
Proof.
  intros Hne Hlen He Ho Ha.
  unfold findJsonFragments, findJsonFragmentsWith.
  rewrite (extractJsonWith_fallback JSON_parse text e Hne Hlen He).
  apply isEmpty_false in Hne. rewrite Hne.
  destruct (Z.gtb_spec (str_length text) maxSize); [lia |].
  rewrite He, shape_no_opening, candidates_no_opening by assumption.
  reflexivity.
Qed.

Lemma no_brackets_structure_undetermined_witness :
  findJsonFragments (lit "not json at all")
  = Return (JNull, [lit "Invalid JSON: " ++ syntaxErrorMessage;
                    lit "Could not determine JSON structure"]).
Proof.
  apply (no_brackets_structure_undetermined (lit "not json at all"));
    [vm_compute; discriminate | vm_compute; discriminate | reflexivity
    | vm_compute; intros H; repeat (apply elem_of_cons in H as [H | H]; [discriminate |]); inversion H
    | vm_compute; intros H; repeat (apply elem_of_cons in H as [H | H]; [discriminate |]); inversion H].
Defined.

(** ** What the two patterns match *)

Lemma objectPattern_nest : objectPattern = nest 123 125 2.
Proof. reflexivity. Qed.

Lemma arrayPattern_nest : arrayPattern = nest 91 93 2.
Proof. reflexivity. Qed.

Lemma closing_done (o c : N) (room : nat) (s : str) : closing o c 0 room s = Some s.
Proof. destruct s; reflexivity. Qed.

Lemma closing_shorter (o c : N) (s : str) :
  forall d room rest,
    closing o c (S d) room s = Some rest -> (length rest < length s)%nat.
Proof.
  induction s as [|x r IH]; intros d room rest; cbn [closing]; [discriminate |].
  destruct (x =? c).
  - destruct d as [|d].
    + rewrite closing_done. intros [= ->]. simpl. lia.
    + intros H. apply IH in H. simpl. lia.
  - destruct (x =? o).
    + destruct room as [|room']; [discriminate |].
      intros H. apply IH in H. simpl. lia.
    + intros H. apply IH in H. simpl. lia.
Qed.

Section Walk.

Variables o c : N.
Hypothesis o_neq_c : o <> c.

Lemma closing_split (s : str) :
  forall d1 d2 room,
    closing o c (d1 + d2) room s
    = andThen (closing o c d1 room s) (closing o c d2 (room + d1)).
Proof.
  unfold andThen.
  induction s as [|x r IH]; intros d1 d2 room.
  - destruct d1 as [|d1]; cbn [closing Nat.add]; reflexivity.
  - destruct d1 as [|d1]; [cbn [closing Nat.add]; now rewrite Nat.add_0_r |].
    cbn [closing Nat.add].
    destruct (x =? c).
    + rewrite IH. now replace (S room + d1)%nat with (room + S d1)%nat by lia.
    + destruct (x =? o).
      * destruct room as [|room']; [reflexivity |].
        replace (S room' + S d1)%nat with (room' + S (S d1))%nat by lia.
        apply (IH (S (S d1)) d2 room').
      * apply (IH (S d1) d2 room).
Qed.

Lemma nest_unfold (n : nat) :
  nest o c n = Seq (Chr o) (Seq (Star (inside o c n)) (Chr c)).
Proof. destruct n; reflexivity. Qed.

Lemma exec_nest_star (n : nat) (k : str -> option str) (s : str) :
  exec (nest o c n) k s
  = match s with
    | x :: r =>
        if x =? o then starLoop (exec (inside o c n)) (exec (Chr c) k) (length r) r
        else None
    | [] => None
    end.
Proof. rewrite nest_unfold. reflexivity. Qed.

Lemma memN_delims (x : N) :
  memN x [o; c] = (x =? o) || (x =? c).
Proof. unfold memN. simpl. now rewrite orb_false_r. Qed.

Lemma starLoop_S (body : (str -> option str) -> str -> option str)
    (k : str -> option str) (f : nat) (s : str) :
  starLoop body k (S f) s
  = match body (fun s' => if Nat.ltb (length s') (length s)
                          then starLoop body k f s' else None) s with
    | Some e => Some e
    | None => k s
    end.
Proof. reflexivity. Qed.

Lemma exec_inside_nil (room : nat) (k : str -> option str) :
  exec (inside o c room) k [] = None.
Proof. destruct room; simpl; [reflexivity |]. now rewrite exec_nest_star. Qed.

Lemma exec_inside_other (room : nat) (k : str -> option str) (x : N) (r : str) :
  x <> o -> x <> c -> exec (inside o c room) k (x :: r) = k r.
Proof.
  intros Ho Hc.
  assert (E : memN x [o; c] = false).
  { rewrite memN_delims. apply orb_false_iff. split; now apply N.eqb_neq. }
  destruct room; cbn [inside exec]; rewrite E; [reflexivity |].
  destruct (k r); [reflexivity |].
  rewrite exec_nest_star. apply N.eqb_neq in Ho. now rewrite Ho.
Qed.

Lemma exec_inside_close (room : nat) (k : str -> option str) (r : str) :
  exec (inside o c room) k (c :: r) = None.
Proof.
  assert (E : memN c [o; c] = true).
  { rewrite memN_delims, N.eqb_refl. apply orb_true_r. }
  destruct room; cbn [inside exec]; rewrite E; [reflexivity |].
  rewrite exec_nest_star.
  destruct (N.eqb_spec c o); [congruence | reflexivity].
Qed.

Lemma exec_inside_open (room : nat) (k : str -> option str) (r : str) :
  exec (inside o c room) k (o :: r)
  = match room with
    | O => None
    | S m => starLoop (exec (inside o c m)) (exec (Chr c) k) (length r) r
    end.
Proof.
  assert (E : memN o [o; c] = true).
  { rewrite memN_delims, N.eqb_refl. reflexivity. }
  destruct room; cbn [inside exec]; rewrite E; [reflexivity |].
  now rewrite exec_nest_star, N.eqb_refl.
Qed.

(** The star of a level followed by its closing delimiter is the walk to
    the end of that level, whatever comes after. *)
Lemma star_level (room : nat) :
  forall k fuel s,
    (length s <= fuel)%nat ->
    starLoop (exec (inside o c room)) (exec (Chr c) k) fuel s
    = andThen (closing o c 1 room s) k.
Proof.
  unfold andThen.
  assert (Hoc : (o =? c) = false) by now apply N.eqb_neq.
  induction room as [|m IHroom]; intros k fuel; induction fuel as [|f IHf];
    intros s Hlen;
    try (destruct s; [reflexivity | simpl in Hlen; lia]);
    rewrite starLoop_S;
    (destruct s as [|x r]; [now rewrite exec_inside_nil |]);
    simpl in Hlen; cbn [closing];
    (destruct (N.eqb_spec x c) as [-> | Hc];
     [rewrite exec_inside_close, closing_done; simpl; now rewrite N.eqb_refl |]);
    (destruct (N.eqb_spec x o) as [-> | Ho];
     [rewrite exec_inside_open
     | rewrite exec_inside_other by assumption;
       replace (length r <? length (x :: r))%nat with true
         by (symmetry; apply Nat.ltb_lt; simpl; lia);
       rewrite IHf by lia; apply N.eqb_neq in Hc;
       destruct (closing o c 1 _ r) as [l |]; [destruct (k l) |];
       try reflexivity; simpl; now rewrite Hc]).
  - simpl. now rewrite Hoc.
  - rewrite IHroom by lia.
    change (closing o c 2 m r) with (closing o c (1 + 1) m r).
    rewrite (closing_split r 1 1 m). unfold andThen.
    destruct (closing o c 1 m r) as [rest |] eqn:E.
    + apply closing_shorter in E.
      replace (length rest <? length (o :: r))%nat with true
        by (symmetry; apply Nat.ltb_lt; simpl; lia).
      rewrite IHf by lia.
      replace (m + 1)%nat with (S m) by lia.
      destruct (closing o c 1 (S m) rest) as [l |]; [destruct (k l) |];
        try reflexivity; simpl; now rewrite Hoc.
    + simpl. now rewrite Hoc.
Qed.

(** One attempt of a pattern is one attempt of the walk. *)
Lemma execAt_nest (n : nat) (s : str) :
  execAt (nest o c n) s = walkAt o c n s.
Proof.
  unfold execAt, walkAt. rewrite exec_nest_star.
  destruct s as [|x r]; [reflexivity |].
  destruct (x =? o); [| reflexivity].
  rewrite star_level by lia. unfold andThen.
  destruct (closing o c 1 n r); reflexivity.
Qed.

End Walk.

Lemma scanFrom_ext (f g : str -> option str) :
  (forall s, f s = g s) ->
  forall n offset s, scanFrom f n offset s = scanFrom g n offset s.
Proof.
  intros Hfg. induction n as [|n IH]; intros offset s; [reflexivity |].
  cbn [scanFrom]. rewrite Hfg.
  destruct (g s) as [rest |].
  - destruct (length s - length rest)%nat; [destruct s |]; now rewrite ?IH.
  - destruct s; now rewrite ?IH.
Qed.

Section WalkMatches.

Variables o c : N.
Variable room : nat.

Lemma scanFrom_skip (pre : str) :
  forall n offset s,
    o ∉ pre ->
    scanFrom (walkAt o c room) (length pre + n) offset (pre ++ s)
    = scanFrom (walkAt o c room) n (offset + length pre) s.
Proof.
  induction pre as [|x pre IH]; intros n offset s Hpre; simpl.
  - now rewrite Nat.add_0_r.
  - apply not_elem_of_cons in Hpre as [Hx Hpre].
    destruct (N.eqb_spec x o) as [-> | _]; [congruence |].
    rewrite IH by assumption. f_equal. lia.
Qed.

Lemma scanFrom_first (n offset : nat) (body post : str) :
  closing o c 1 room (body ++ post) = Some post ->
  exists rest,
    scanFrom (walkAt o c room) (S n) offset (o :: body ++ post)
    = (offset, o :: body) :: rest.
Proof.
  intros H. cbn [scanFrom walkAt]. rewrite N.eqb_refl, H.
  replace (length (o :: body ++ post) - length post)%nat with (S (length body))
    by (simpl; rewrite length_app; lia).
  cbn [take]. rewrite take_app_length. eauto.
Qed.

End WalkMatches.

Lemma walkMatches_first (o c : N) (pre body post : str) :
  o ∉ pre ->
  closing o c 1 2 (body ++ post) = Some post ->
  exists rest, walkMatches o c (pre ++ o :: body ++ post) = (o :: body) :: rest.
Proof.
  intros Hpre H. unfold walkMatches.
  replace (S (length (pre ++ o :: body ++ post)))
    with (length pre + S (S (length (body ++ post))))%nat
    by (repeat (rewrite ?length_app; cbn [length]); lia).
  rewrite scanFrom_skip by assumption.
  destruct (scanFrom_first o c 2 (S (length (body ++ post))) (0 + length pre) body post H)
    as [rest Hrest].
  rewrite Hrest. simpl. eauto.
Qed.

Lemma String_match_object (text : str) :
  String_match objectPattern text = walkMatches 123 125 text.
Proof.
  unfold String_match, matchesAt, walkMatches. rewrite objectPattern_nest.
  f_equal. apply scanFrom_ext. intros s. now apply execAt_nest.
Qed.

Lemma String_match_array (text : str) :
  String_match arrayPattern text = walkMatches 91 93 text.
Proof.
  unfold String_match, matchesAt, walkMatches. rewrite arrayPattern_nest.
  f_equal. apply scanFrom_ext. intros s. now apply execAt_nest.
Qed.

(** The bound of the scan is never reached either: a match leaves no more
    text than it was given. *)
Lemma scanFrom_bound (f : str -> option str) :
  (forall s rest, f s = Some rest -> (length rest <= length s)%nat) ->
  forall n m offset s,
    (length s < n)%nat -> (length s < m)%nat ->
    scanFrom f n offset s = scanFrom f m offset s.
Proof.
  intros Hf. induction n as [|n IH]; intros m offset s Hn Hm; [lia |].
  destruct m as [|m]; [lia |]. cbn [scanFrom].
  destruct (f s) as [rest |] eqn:E.
  - apply Hf in E. f_equal.
    destruct (length s - length rest)%nat eqn:El.
    + destruct s as [|x r]; [reflexivity |]. simpl in *. apply IH; lia.
    + apply IH; lia.
  - destruct s as [|x r]; [reflexivity |]. simpl in *. apply IH; lia.
Qed.

Lemma walkAt_length (o c : N) (room : nat) (s rest : str) :
  walkAt o c room s = Some rest -> (length rest <= length s)%nat.
Proof.
  destruct s as [|x r]; [discriminate |]. cbn [walkAt].
  destruct (x =? o); [| discriminate].
  intros H. apply closing_shorter in H. simpl. lia.
Qed.

(** Every match of a scan is what one attempt of the matcher consumed. *)
Lemma scanFrom_matches (f : str -> option str) (n : nat) :
  forall offset s p,
    p ∈ scanFrom f n offset s ->
    exists s' rest, f s' = Some rest /\ p.2 = take (length s' - length rest) s'.
Proof.
  induction n as [|n IH]; intros offset s p; cbn [scanFrom].
  - intros H. inversion H.
  - destruct (f s) as [rest |] eqn:E.
    + intros H. apply elem_of_cons in H as [-> | H]; [eauto |].
      destruct (length s - length rest)%nat; [destruct s; [inversion H |] |];
        eapply IH; eassumption.
    + destruct s; [intros H; inversion H | apply IH].
Qed.

(** What a walk that closes has read: it ends with the closing delimiter
    and never holds more levels than the walk allows. *)
Lemma closing_nesting (o c : N) (s : str) :
  forall d room rest,
    closing o c d room s = Some rest ->
    exists m, s = m ++ rest
              /\ (nesting o c d m <= d + room)%nat
              /\ (d = 0%nat -> m = [])
              /\ (d <> 0%nat -> last m = Some c).
Proof.
  induction s as [|x r IH]; intros d room rest H.
  - destruct d; [| discriminate]. injection H as <-.
    exists []. repeat split; [simpl; lia | congruence].
  - destruct d as [|d].
    { rewrite closing_done in H. injection H as <-.
      exists []. repeat split; [simpl; lia | congruence]. }
    cbn [closing] in H.
    assert (Hlast : forall m : str,
              (m = [] -> x = c) -> (m <> [] -> last m = Some c) ->
              last (x :: m) = Some c).
    { intros [|y m] H0 H1; [now rewrite H0 | now apply H1]. }
    destruct (x =? c) eqn:Ec.
    + apply N.eqb_eq in Ec as ->.
      destruct (IH _ _ _ H) as (m & -> & Hn & H0 & H1).
      exists (c :: m). split; [reflexivity |]. cbn [nesting].
      rewrite N.eqb_refl. cbn [Nat.pred].
      split; [lia |]. split; [discriminate |]. intros _.
      apply Hlast; [reflexivity |]. intros Hm. apply H1. intros ->.
      now apply Hm, H0.
    + destruct (x =? o) eqn:Eo.
      * destruct room as [|room']; [discriminate |].
        destruct (IH _ _ _ H) as (m & -> & Hn & _ & H1).
        exists (x :: m). split; [reflexivity |]. cbn [nesting]. rewrite Ec, Eo.
        split; [lia |]. split; [discriminate |]. intros _.
        assert (Hl : last m = Some c) by now apply H1.
        apply Hlast; [intros ->; discriminate | auto].
      * destruct (IH _ _ _ H) as (m & -> & Hn & _ & H1).
        exists (x :: m). split; [reflexivity |]. cbn [nesting]. rewrite Ec, Eo.
        split; [lia |]. split; [discriminate |]. intros _.
        assert (Hl : last m = Some c) by now apply H1.
        apply Hlast; [intros ->; discriminate | auto].
Qed.

(** Every match of the walk opens with [o], ends with [c] and nests [o]
    and [c] no deeper than the walk allows. *)
Lemma walkMatches_nesting (o c : N) (text m : str) :
  o <> c ->
  m ∈ walkMatches o c text ->
  head m = Some o /\ last m = Some c /\ (nesting o c 0 m <= 3)%nat.
Proof.
  intros Hoc H. unfold walkMatches in H.
  apply list_elem_of_fmap in H as (p & -> & Hp).
  apply scanFrom_matches in Hp as (s' & rest & Hf & ->).
  destruct s' as [|x r]; [discriminate |]. cbn [walkAt] in Hf.
  destruct (N.eqb_spec x o) as [-> | _]; [| discriminate].
  destruct (closing_nesting o c r 1 2 rest Hf) as (m & -> & Hn & _ & Hl).
  replace (length (o :: m ++ rest) - length rest)%nat with (S (length m))
    by (simpl; rewrite length_app; lia).
  cbn [take]. rewrite take_app_length.
  split; [reflexivity |]. split.
  - specialize (Hl ltac:(lia)). destruct m as [|y m]; [discriminate | exact Hl].
  - cbn [nesting]. rewrite N.eqb_refl.
    destruct (N.eqb_spec o c) as [E | _]; [contradiction | exact Hn].
Qed.

(** C1 fails as stated: an object nested four levels deep after some
    prose is valid JSON and balanced, but only its inner three levels are
    a candidate. *)
Lemma embedded_fragment_counterexample :
  ~ embedded_fragment_claim (lit "x {'a':{'b':{'c':{'d':1}}}}").
Proof.
  intros H.
  specialize (H (lit "{'a':{'b':{'c':{'d':1}}}}")).
  assert (Hin : lit "{'a':{'b':{'c':{'d':1}}}}"
                ∈ balancedSubstrings (lit "x {'a':{'b':{'c':{'d':1}}}}")).
  { vm_compute. apply list_elem_of_here. }
  assert (Hvalid : valid JSON_parse (lit "{'a':{'b':{'c':{'d':1}}}}")).
  { eexists. vm_compute. reflexivity. }
  specialize (H Hin Hvalid). vm_compute in H.
  apply list_elem_of_singleton in H. discriminate.
Qed.

(** C1, amended. The candidates of [extractJson] are the successive
    matches, from left to right and without overlap, of a walk that opens
    at a brace (then at a square bracket), counts the delimiters of that
    one kind, gives up when a fourth level would open, closes at the
    delimiter that balances the first one, and passes over every other
    code unit, quotation marks included. A substring that opens with such
    a delimiter is a candidate when no delimiter of its kind opens before
    it and the walk from its opening delimiter closes at its end. Every
    candidate opens with a brace, ends with a closing brace and nests
    braces at most three deep, or opens with a square bracket, ends with a
    closing square bracket and nests square brackets at most three deep:
    a substring that opens with a brace and nests braces deeper than
    three, or opens with a square bracket and nests square brackets deeper
    than three, is not a candidate. *)
Theorem candidates_are_bounded_walks (text : str) :
  candidates text = walkMatches 123 125 text ++ walkMatches 91 93 text
  /\ (forall pre body post,
        text = pre ++ 123 :: body ++ post -> 123 ∉ pre ->
        closing 123 125 1 2 (body ++ post) = Some post ->
        (123 :: body) ∈ candidates text)
  /\ (forall pre body post,
        text = pre ++ 91 :: body ++ post -> 91 ∉ pre ->
        closing 91 93 1 2 (body ++ post) = Some post ->
        (91 :: body) ∈ candidates text)
  /\ (forall m, m ∈ candidates text ->
        (head m = Some 123 /\ last m = Some 125
         /\ (nesting 123 125 0 m <= 3)%nat)
        \/ (head m = Some 91 /\ last m = Some 93
            /\ (nesting 91 93 0 m <= 3)%nat))
  /\ (forall m, head m = Some 123 -> (3 < nesting 123 125 0 m)%nat ->
        m ∉ candidates text)
  /\ (forall m, head m = Some 91 -> (3 < nesting 91 93 0 m)%nat ->
        m ∉ candidates text).
Proof.
  assert (E : candidates text = walkMatches 123 125 text ++ walkMatches 91 93 text).
  { unfold candidates. now rewrite String_match_object, String_match_array. }
  assert (Hall : forall m, m ∈ candidates text ->
            (head m = Some 123 /\ last m = Some 125
             /\ (nesting 123 125 0 m <= 3)%nat)
            \/ (head m = Some 91 /\ last m = Some 93
                /\ (nesting 91 93 0 m <= 3)%nat)).
  { intros m Hm. rewrite E in Hm. apply elem_of_app in Hm as [Hm | Hm];
      [left | right];
      (eapply walkMatches_nesting; [discriminate | exact Hm]). }
  split; [exact E |].
  split; [| split; [| split; [exact Hall | split]]].
  - rewrite E. intros pre body post -> Hpre H.
    destruct (walkMatches_first 123 125 pre body post Hpre H) as [rest ->].
    apply elem_of_app. left. apply list_elem_of_here.
  - rewrite E. intros pre body post -> Hpre H.
    destruct (walkMatches_first 91 93 pre body post Hpre H) as [rest ->].
    apply elem_of_app. right. apply list_elem_of_here.
  - intros m Hh Hn Hm.
    destruct (Hall m Hm) as [(_ & _ & Hle) | (Hh' & _)]; [lia | congruence].
  - intros m Hh Hn Hm.
    destruct (Hall m Hm) as [(Hh' & _) | (_ & _ & Hle)]; [congruence | lia].
Qed.

(** Delimiters of the other kind are not counted: an object that holds
    arrays nested four deep is a candidate as a whole. *)
Example mixed_nesting_is_candidate :
  lit "{'a':[[[[1]]]]}" ∈ candidates (lit "x {'a':[[[[1]]]]}").
Proof. vm_compute. apply list_elem_of_here. Qed.

Lemma candidates_are_bounded_walks_witness :
  lit "{'x': 5}" ∈ candidates (lit "Here is data: {'x': 5} end.").
Proof.
  apply (proj1 (proj2 (candidates_are_bounded_walks (lit "Here is data: {'x': 5} end.")))
           (lit "Here is data: ") (lit "'x': 5}") (lit " end."));
    [reflexivity | | reflexivity].
  vm_compute. intros H.
  repeat (apply elem_of_cons in H as [H | H]; [discriminate |]). inversion H.
Defined.

(** ** A document with one corrupt line *)

(** C4. The claim promises a non-null object with a placeholder key for
    the corrupt line. On [corruptDocument], which is object-shaped, fails
    strict parsing and has line 3 as its one corrupt line, the second pass
    wraps the lines, outer braces included, in a second pair of braces and
    puts a separator after the lines instead of between the members; the
    rebuilt text does not parse, no fragment parses either, and the result
    is null. *)
Theorem corrupt_line_document_not_recovered :
  shape corruptDocument = (true, false)
  /\ JSON_parse corruptDocument = SyntaxError syntaxErrorMessage
  /\ corruptLineNumbers
       (firstPass JSON_parse true [lit "Invalid JSON: " ++ syntaxErrorMessage]
                  corruptDocument) = [3]
  /\ reconstructed JSON_parse [lit "Invalid JSON: " ++ syntaxErrorMessage]
                   corruptDocument
     = lit "{
  {
  'a': 1,,
  '__corrupt_line_3': null,
  'c': 3,
  }
}"
  /\ findJsonFragments corruptDocument
     = Return (JNull,
               [lit "Invalid JSON: " ++ syntaxErrorMessage;
                lit "Potentially corrupt JSON at line 3";
                lit "Could not recover any valid JSON"]).
Proof.
  split; [vm_compute; reflexivity |].
  split; [vm_compute; reflexivity |].
  split; [vm_compute; reflexivity |].
  split; vm_compute; reflexivity.
Qed.

(** The same on the scenario of the specification: lines 1 and 3 are
    flagged, line 2 is not, and the result is null. *)
Lemma broken_line_document_not_recovered :
  corruptLineNumbers
    (firstPass JSON_parse true [lit "Invalid JSON: " ++ syntaxErrorMessage]
               brokenLineDocument) = [1; 3]
  /\ findJsonFragments brokenLineDocument
     = Return (JNull,
               [lit "Invalid JSON: " ++ syntaxErrorMessage;
                lit "Potentially corrupt JSON at line 1";
                lit "Mismatched brackets at line 3";
                lit "Potentially corrupt JSON at line 3";
                lit "Could not recover any valid JSON"]).
Proof. split; vm_compute; reflexivity. Qed.

(** A document on which the second pass does succeed: a single line that
    is flagged corrupt. *)
Lemma single_corrupt_line_recovered :
  findJsonFragments (lit "{'a': 1,}")
  = Return (JObject [(lit "__corrupt_line_1", JNull)],
            [lit "Invalid JSON: " ++ syntaxErrorMessage;
             lit "Potentially corrupt JSON at line 1"]).
Proof. vm_compute. reflexivity. Qed.

(** ** Termination *)

Local Close Scope N_scope.

Lemma closed_members (h : gmap nat object) (a : nat) (obj : object) :
  closed h = true -> h !! a = Some obj ->
  Forall (fun m => refOk h m.2 = true) (members obj).
Proof.
  unfold closed. intros Hc Ha.
  rewrite forallb_forall in Hc.
  specialize (Hc (a, obj)). simpl in Hc.
  apply Forall_forall. intros m Hm.
  assert (Hin : In (a, obj) (map_to_list h)).
  { apply list_elem_of_In, elem_of_map_to_list. exact Ha. }
  specialize (Hc Hin). rewrite forallb_forall in Hc.
  apply Hc, list_elem_of_In, Hm.
Qed.









Section Termination.

Variable h : gmap nat object.
Hypothesis h_closed : closed h = true.






End Termination.

Example safeStringify_cyclic :
  safeStringify cyclicHeap (VRef 0) 2
  = Some (Return (lit "{
  'name': 'a',
  'self': '[Circular Reference]',
  'list': [
    1,
    '[Circular Reference]',
    '[Circular Reference]'
  ]
}")).
Proof. vm_compute. reflexivity. Qed.



(** ** Round trip *)

(** C6. The array [[a, a]] with [a = {}] has no cycle and denotes
    [[{}, {}]], but [safeStringify] writes the second occurrence of [a] as
    the sentinel string, and parsing its text gives
    [[{}, "[Circular Reference]"]]: the round trip fails. *)
Theorem shared_reference_breaks_round_trip :
  acyclicTree sharedHeap (VRef 0) = Some (JArray [JObject []; JObject []])
  /\ safeStringify sharedHeap (VRef 0) 2
     = Some (Return (lit "[
  {},
  '[Circular Reference]'
]"))
  /\ JSON_parse (lit "[
  {},
  '[Circular Reference]'
]") = Parsed (JArray [JObject []; JString sentinel])
  /\ ~ round_trip_claim sharedHeap (VRef 0).
Proof.
  assert (Htree : acyclicTree sharedHeap (VRef 0)
                  = Some (JArray [JObject []; JObject []]))
    by (vm_compute; reflexivity).
  split; [exact Htree |].
  split; [vm_compute; reflexivity |].
  split; [vm_compute; reflexivity |].
  intros H. destruct (H _ Htree) as (s & Hs & Hp).
  vm_compute in Hs. injection Hs as <-.
  vm_compute in Hp. discriminate.
Qed.

(** Without a shared object the round trip holds on the same shape: two
    distinct empty objects. *)
Example distinct_objects_round_trip :
  round_trip_claim
    (<[0 := OArray [VRef 1; VRef 2]]> (<[1 := OObject []]> (<[2 := OObject []]> ∅)))
    (VRef 0).
Proof.
  intros t Ht. vm_compute in Ht. injection Ht as <-.
  exists (lit "[
  {},
  {}
]").
  split; vm_compute; reflexivity.
Qed.

(** * Further properties *)

Local Open Scope N_scope.

(** ** [shouldRenderNode] *)

Lemma split_nonempty (sep : N) (s : str) : split sep s <> [].
Proof.
  induction s as [|c r IH]; simpl; [discriminate |].
  destruct (c =? sep); [discriminate |].
  destruct (split sep r); [contradiction | discriminate].
Qed.

(** A text either has no separator and is its only part, or it is a first
    part without separator, the separator, and the rest. *)
Lemma split_cases (sep : N) (s : str) :
  ((sep ∉ s) /\ split sep s = [s])
  \/ exists part s',
       s = part ++ sep :: s' /\ (sep ∉ part)
       /\ split sep s = part :: split sep s'.
Proof.
  induction s as [|c r IH]; simpl.
  - left. split; [apply not_elem_of_nil | reflexivity].
  - destruct (N.eqb_spec c sep) as [-> | Hc].
    + right. exists [], r. split; [reflexivity |].
      split; [apply not_elem_of_nil | reflexivity].
    + destruct IH as [[Hno Hs] | (part & s' & -> & Hno & Hs)].
      * left. rewrite Hs. split; [| reflexivity].
        apply not_elem_of_cons. auto.
      * right. exists (c :: part), s'. rewrite Hs.
        split; [reflexivity |]. split; [| reflexivity].
        apply not_elem_of_cons. auto.
Qed.

Lemma first_separator (sep : N) (part : str) :
  forall s' p rest,
    sep ∉ part -> part ++ sep :: s' = p ++ sep :: rest ->
    (p = part /\ rest = s')
    \/ exists p', p = part ++ sep :: p' /\ s' = p' ++ sep :: rest.
Proof.
  induction part as [|x part IH]; intros s' p rest Hno H.
  - destruct p as [|y p]; simpl in H.
    + left. injection H as ->. auto.
    + right. injection H as <- ->. eauto.
  - apply not_elem_of_cons in Hno as [Hx Hno].
    destruct p as [|y p]; simpl in H.
    + injection H as -> _. congruence.
    + injection H as <- H.
      destruct (IH _ _ _ Hno H) as [[-> ->] | (p' & -> & ->)]; [left | right]; eauto.
Qed.

Section Ancestors.

Variable expandedPaths : gset str.

Lemma ancestorsExpanded_step (cur part : str) (parts : list str) :
  parts <> [] ->
  ancestorsExpanded expandedPaths cur (part :: parts)
  = if bool_decide (cur ++ (if isEmpty cur then [] else [46]) ++ part
                    ∈ expandedPaths)
    then ancestorsExpanded expandedPaths
           (cur ++ (if isEmpty cur then [] else [46]) ++ part) parts
    else false.
Proof. destruct parts; [contradiction | reflexivity]. Qed.

(** Once the current path is not empty, the loop checks the current path
    extended by every proper prefix of the rest that ends before a
    dot. *)
Lemma ancestorsExpanded_prefixes (n : nat) :
  forall s cur,
    (length s <= n)%nat -> cur <> [] ->
    ancestorsExpanded expandedPaths cur (split 46 s) = true
    <-> forall p rest, s = p ++ 46 :: rest -> cur ++ 46 :: p ∈ expandedPaths.
Proof.
  induction n as [|n IH]; intros s cur Hn Hcur.
  - destruct s; [| simpl in Hn; lia]. simpl. split; [| reflexivity].
    intros _ p rest H. destruct p; discriminate.
  - destruct (split_cases 46 s) as [[Hno Hs] | (part & s' & -> & Hno & Hs)].
    + rewrite Hs. simpl. split; [| reflexivity].
      intros _ p rest ->. exfalso. apply Hno.
      apply elem_of_app. right. apply list_elem_of_here.
    + rewrite Hs, ancestorsExpanded_step by apply split_nonempty.
      replace (isEmpty cur) with false by (destruct cur; [contradiction | reflexivity]).
      rewrite length_app in Hn. simpl in Hn.
      split.
      * intros H p rest Hp.
        destruct (bool_decide (cur ++ [46] ++ part ∈ expandedPaths)) eqn:Eb;
          [| discriminate].
        apply bool_decide_eq_true_1 in Eb.
        destruct (first_separator 46 part s' p rest Hno Hp) as [[-> ->] | (p' & -> & ->)].
        -- exact Eb.
        -- assert (Hc : cur ++ [46] ++ part <> []) by (destruct cur; discriminate).
           pose proof (proj1 (IH (p' ++ 46 :: rest) _ ltac:(lia) Hc) H p' rest eq_refl) as H'.
           now rewrite <- !app_assoc in H'.
      * intros H.
        rewrite bool_decide_eq_true_2 by (apply (H part s' eq_refl)).
        assert (Hc : cur ++ [46] ++ part <> []) by (destruct cur; discriminate).
        apply (proj2 (IH s' _ ltac:(lia) Hc)).
        intros p' rest ->.
        specialize (H (part ++ 46 :: p') rest).
        rewrite <- !app_assoc. apply H. now rewrite <- app_assoc.
Qed.

End Ancestors.

Lemma ancestorsExpanded_mono (expanded expanded' : gset str) (parts : list str) :
  expanded ⊆ expanded' ->
  forall cur,
    ancestorsExpanded expanded cur parts = true ->
    ancestorsExpanded expanded' cur parts = true.
Proof.
  intros Hsub. induction parts as [|part rest IH]; intros cur; [reflexivity |].
  destruct rest as [|q rest]; [reflexivity |].
  rewrite (ancestorsExpanded_step expanded cur part (q :: rest)),
    (ancestorsExpanded_step expanded' cur part (q :: rest)) by discriminate.
  destruct (bool_decide (_ ∈ expanded)) eqn:E; [| discriminate].
  apply bool_decide_eq_true_1 in E.
  rewrite bool_decide_eq_true_2 by (apply Hsub, E). apply IH.
Qed.

(** X1. Without a search query, a path that does not start with a dot is
    rendered exactly when every ancestor path, that is every prefix of the
    path that ends just before a dot, is in [expandedPaths]. *)
Theorem shouldRenderNode_ancestors (path : str) (expandedPaths : gset str) :
  head path <> Some 46 ->
  shouldRenderNode path [] expandedPaths = true
  <-> forall p rest, path = p ++ 46 :: rest -> p ∈ expandedPaths.
Proof.
  intros Hhead. unfold shouldRenderNode. cbn [isEmpty].
  destruct (split_cases 46 path) as [[Hno Hs] | (part & s' & -> & Hno & Hs)].
  - rewrite Hs. simpl. split; [| reflexivity].
    intros _ p rest ->. exfalso. apply Hno.
    apply elem_of_app. right. apply list_elem_of_here.
  - rewrite Hs, ancestorsExpanded_step by apply split_nonempty.
    cbn [isEmpty app].
    assert (Hpart : part <> []) by (destruct part; [simpl in Hhead; congruence | discriminate]).
    split.
    + intros H p rest Hp.
      destruct (bool_decide (part ∈ expandedPaths)) eqn:Eb; [| discriminate].
      apply bool_decide_eq_true_1 in Eb.
      destruct (first_separator 46 part s' p rest Hno Hp) as [[-> ->] | (p' & -> & ->)];
        [exact Eb |].
      apply (proj1 (ancestorsExpanded_prefixes expandedPaths _ _ _ (Nat.le_refl _) Hpart) H
               p' rest eq_refl).
    + intros H.
      rewrite bool_decide_eq_true_2 by (apply (H part s' eq_refl)).
      apply (proj2 (ancestorsExpanded_prefixes expandedPaths _ _ _ (Nat.le_refl _) Hpart)).
      intros p' rest ->. apply (H (part ++ 46 :: p') rest). now rewrite <- app_assoc.
Qed.

Lemma shouldRenderNode_ancestors_witness :
  head (lit "a.b.c") <> Some 46
  /\ shouldRenderNode (lit "a.b.c") [] {[lit "a"; lit "a.b"]} = true
  /\ lit "a.b" ∈ ({[lit "a"; lit "a.b"]} : gset str).
Proof.
  split; [discriminate |]. split; [vm_compute; reflexivity |].
  apply (proj1 (shouldRenderNode_ancestors (lit "a.b.c") {[lit "a"; lit "a.b"]}
                  ltac:(discriminate))
           ltac:(vm_compute; reflexivity) (lit "a.b") (lit "c")).
  reflexivity.
Defined.

(** X2. Expanding more paths never hides a node: if a node is rendered
    with one set of expanded paths, it is rendered with every larger
    set, with or without a search query. *)
Theorem shouldRenderNode_mono (path searchQuery : str)
    (expanded expanded' : gset str) :
  expanded ⊆ expanded' ->
  shouldRenderNode path searchQuery expanded = true ->
  shouldRenderNode path searchQuery expanded' = true.
Proof.
  intros Hsub. unfold shouldRenderNode.
  destruct (isEmpty searchQuery); [| reflexivity].
  now apply ancestorsExpanded_mono.
Qed.

Lemma shouldRenderNode_mono_witness :
  ({[lit "a"]} : gset str) ⊆ {[lit "a"; lit "a.b"]}
  /\ shouldRenderNode (lit "a.b") [] {[lit "a"]} = true
  /\ shouldRenderNode (lit "a.b") [] {[lit "a"; lit "a.b"]} = true.
Proof.
  split; [set_solver |]. split; [vm_compute; reflexivity |].
  apply (shouldRenderNode_mono (lit "a.b") [] {[lit "a"]} {[lit "a"; lit "a.b"]});
    [set_solver | vm_compute; reflexivity].
Defined.

(** X3. A path with an empty first part is not checked against its own
    prefixes: without a search query, a path that starts with a dot is
    rendered exactly when the empty string is in [expandedPaths] and the
    path without that dot would be rendered. *)
Theorem shouldRenderNode_leading_dot (path : str) (expandedPaths : gset str) :
  shouldRenderNode (46 :: path) [] expandedPaths
  = bool_decide ([] ∈ expandedPaths) && shouldRenderNode path [] expandedPaths.
Proof.
  unfold shouldRenderNode. cbn [isEmpty split]. rewrite N.eqb_refl.
  rewrite ancestorsExpanded_step by apply split_nonempty.
  cbn [isEmpty app].
  destruct (bool_decide ([] ∈ expandedPaths)); reflexivity.
Qed.

(** ** The warnings of the first pass *)

Lemma scanChars_warnings (n : N) (cs : str) :
  forall prev st,
    exists extra,
      warnings (scanChars n prev cs st) = warnings st ++ extra
      /\ (isCorruptLine (scanChars n prev cs st) = true ->
          isCorruptLine st = true \/ extra <> []).
Proof.
  induction cs as [|char rest IH]; intros prev st; cbn [scanChars].
  - exists []. rewrite app_nil_r. auto.
  - match goal with
    | |- context [match ?p with (_, _) => _ end] =>
        destruct p as [stack [|]]
    end.
    + eexists. split; [reflexivity |]. right. discriminate.
    + match goal with
      | |- context [if ?b then _ else _] =>
          match b with
          | (_ && negb (char =? 9)) => destruct b
          end
      end.
      * eexists. split; [reflexivity |]. right. discriminate.
      * match goal with
        | |- context [scanChars n ?pr rest ?st'] =>
            destruct (IH pr st') as (extra & Hw & Hc)
        end.
        exists extra. split; assumption.
Qed.

(** What one line adds to the state of the first pass. *)
Lemma classifyLine_step (parse : str -> parsed) (isObject : bool)
    (ls : lineState) (line : str) :
  let ls' := classifyLine parse isObject ls line in
  lineNumber ls' = lineNumber ls + 1
  /\ exists extra,
       lsWarnings ls' = lsWarnings ls ++ extra
       /\ (corruptLineNumbers ls' = corruptLineNumbers ls
           \/ (corruptLineNumbers ls' = corruptLineNumbers ls ++ [lineNumber ls + 1]
               /\ extra <> [])).
Proof.
  unfold classifyLine.
  destruct (scanChars_warnings (lineNumber ls + 1) line None
              (CharState (lsInString ls) (lsBracketStack ls) false (lsWarnings ls)))
    as (extra & Hw & Hc).
  set (cs := scanChars _ _ _ _) in *. simpl in Hw, Hc.
  destruct (inString cs); destruct (parse _);
    try destruct (includes (lit ":") line && hasBracket line);
    cbn [lineNumber lsWarnings corruptLineNumbers];
    (split; [reflexivity |]); rewrite ?Hw, <- ?app_assoc;
    try (eexists; split; [reflexivity |]; right; split; [reflexivity |];
         destruct extra; discriminate).
  all: destruct (isCorruptLine cs) eqn:E;
    eexists; (split; [reflexivity |]);
    [right; split; [reflexivity |]; destruct (Hc eq_refl); [discriminate | assumption]
    | left; reflexivity].
Qed.

Lemma classifyLine_invariant (parse : str -> parsed) (isObject : bool)
    (warnings0 : list str) (ls : lineState) (line : str) :
  firstPassInvariant warnings0 ls ->
  firstPassInvariant warnings0 (classifyLine parse isObject ls line).
Proof.
  intros (extra & Hw & Hlen & Hsorted & Hrange).
  destruct (classifyLine_step parse isObject ls line) as (Hn & more & Hw' & Hc).
  exists (extra ++ more). rewrite Hw', Hw, <- app_assoc. split; [reflexivity |].
  rewrite Hn, length_app.
  destruct Hc as [-> | [-> Hmore]].
  - split; [lia |]. split; [assumption |].
    eapply Forall_impl; [exact Hrange |]. simpl. intros; lia.
  - rewrite length_app. simpl.
    split; [destruct more; [contradiction | simpl; lia] |]. split.
    + clear - Hsorted Hrange.
      induction (corruptLineNumbers ls) as [|x l IH]; simpl.
      * repeat constructor.
      * inversion Hsorted; inversion Hrange; subst. constructor; [auto |].
        apply Forall_app. split; [assumption |]. repeat constructor. lia.
    + apply Forall_app. split.
      * eapply Forall_impl; [exact Hrange |]. simpl. intros; lia.
      * repeat constructor; lia.
Qed.

Lemma fold_classifyLine_invariant (parse : str -> parsed) (isObject : bool)
    (warnings0 : list str) (lines : list str) :
  forall ls,
    firstPassInvariant warnings0 ls ->
    firstPassInvariant warnings0 (fold_left (classifyLine parse isObject) lines ls)
    /\ lineNumber (fold_left (classifyLine parse isObject) lines ls)
       = lineNumber ls + N.of_nat (length lines).
Proof.
  induction lines as [|line lines IH]; intros ls Hinv; simpl.
  - split; [assumption | lia].
  - destruct (IH _ (classifyLine_invariant parse isObject warnings0 ls line Hinv))
      as [H1 H2].
    split; [assumption |]. rewrite H2.
    destruct (classifyLine_step parse isObject ls line) as (-> & _). lia.
Qed.

Lemma firstPass_invariant (parse : str -> parsed) (isObject : bool)
    (warnings0 : list str) (text : str) :
  firstPassInvariant warnings0 (firstPass parse isObject warnings0 text)
  /\ lineNumber (firstPass parse isObject warnings0 text)
     = N.of_nat (length (split 10 text)).
Proof.
  unfold firstPass.
  destruct (fold_classifyLine_invariant parse isObject warnings0 (split 10 text)
              (LineState false [] [] 0 [] warnings0)) as [H1 H2].
  - exists []. simpl. rewrite app_nil_r. repeat split; constructor.
  - split; [assumption |]. rewrite H2. simpl. lia.
Qed.

(** X4. The line numbers that the first pass flags are distinct, in
    increasing order, and each is the number of a line of the text, from 1
    to the number of lines. *)
Theorem flagged_lines_increasing (parse : str -> parsed) (isObject : bool)
    (warnings0 : list str) (text : str) :
  StronglySorted N.lt (corruptLineNumbers (firstPass parse isObject warnings0 text))
  /\ Forall (fun n => 1 <= n <= N.of_nat (length (split 10 text)))
            (corruptLineNumbers (firstPass parse isObject warnings0 text)).
Proof.
  destruct (firstPass_invariant parse isObject warnings0 text)
    as [(extra & _ & _ & Hsorted & Hrange) Hn].
  rewrite Hn in Hrange. auto.
Qed.

Lemma valid_text_is_parsed_core (text : str) (v : json) :
  (str_length text <= maxSize)%Z -> JSON_parse text = Parsed v ->
  findJsonFragmentsWith JSON_parse text = Return (v, []).
Proof.
  intros Hlen Hv. unfold findJsonFragmentsWith.
  destruct (isEmpty (trim text)) eqn:E.
  - apply isEmpty_true, JSON_parse_blank in E. congruence.
  - destruct (Z.gtb_spec (str_length text) maxSize); [lia |].
    now rewrite Hv.
Qed.

(** What [findJsonFragments] does on a text that is not blank, is within
    the limit and does not parse. *)
Lemma findJsonFragmentsWith_invalid (parse : str -> parsed) (text e : str) :
  trim text <> [] -> (str_length text <= maxSize)%Z ->
  parse text = SyntaxError e ->
  findJsonFragmentsWith parse text
  = let warnings0 := [lit "Invalid JSON: " ++ e] in
    let '(isObject, isArray) := shape text in
    if negb isObject && negb isArray then
      Return ((fold_left (tryMatch parse) (candidates text) ([], JNull)).2,
              warnings0 ++ [lit "Could not determine JSON structure"])
    else
      let ls := firstPass parse isObject warnings0 text in
      match parse (reconstruct isObject isArray (corruptLineNumbers ls)
                               (split 10 text)) with
      | Parsed result => Return (result, lsWarnings ls)
      | SyntaxError _ =>
          let extracted :=
            (fold_left (tryMatch parse) (candidates text) ([], JNull)).2 in
          if truthy extracted then
            Return (extracted,
                    lsWarnings ls
                    ++ [lit "Reconstruction failed, using largest valid fragment"])
          else
            Return (JNull, lsWarnings ls ++ [lit "Could not recover any valid JSON"])
      end.
Proof.
  intros Hne Hlen He. unfold findJsonFragmentsWith.
  rewrite (extractJsonWith_fallback parse text e Hne Hlen He).
  apply isEmpty_false in Hne. rewrite Hne.
  destruct (Z.gtb_spec (str_length text) maxSize); [lia |].
  rewrite He. reflexivity.
Qed.

Lemma findJsonFragments_warnings (text : str) (v : json) (w : list str) :
  findJsonFragments text = Return (v, w) ->
  (w = [] <-> trim text = [] \/ JSON_parse text = Parsed v)
  /\ (forall e, trim text <> [] -> JSON_parse text = SyntaxError e ->
      exists w', w = (lit "Invalid JSON: " ++ e) :: w').
Proof.
  intros H. unfold findJsonFragments in H.
  destruct (decide (trim text = [])) as [Hblank | Hne].
  { rewrite findJsonFragmentsWith_blank in H by assumption.
    injection H as <- <-. split; [tauto | contradiction]. }
  destruct (Z_le_gt_dec (str_length text) maxSize) as [Hlen | Hlen].
  2:{ rewrite findJsonFragmentsWith_oversize in H by assumption. discriminate. }
  destruct (JSON_parse text) as [v0 | e] eqn:E.
  { rewrite (valid_text_is_parsed_core text v0 Hlen E) in H.
    injection H as <- <-. split; [tauto |]. intros; discriminate. }
  rewrite (findJsonFragmentsWith_invalid JSON_parse text e Hne Hlen E) in H.
  cbv zeta in H.
  destruct (firstPass_invariant JSON_parse (shape text).1
              [lit "Invalid JSON: " ++ e] text) as [(extra & Hw & _) _].
  destruct (shape text) as [isObject isArray]. simpl in Hw.
  assert (Hw' : exists w', w = (lit "Invalid JSON: " ++ e) :: w').
  { destruct (negb isObject && negb isArray); [injection H as _ <-; eauto |].
    destruct (JSON_parse (reconstruct _ _ _ _));
      [| destruct (truthy _)]; injection H as _ <-; rewrite Hw; simpl; eauto. }
  destruct Hw' as [w' ->]. split.
  - split; [discriminate | intros [? | ?]; [contradiction | discriminate]].
  - intros e' _ [= <-]. eauto.
Qed.

(** X5. [findJsonFragments] returns an empty warning list exactly when the
    text is blank or is valid JSON; for every other text on which it
    returns, the first warning is [Invalid JSON: ] followed by the message
    of the parser. *)
Theorem warnings_start_with_parse_error (text : str) (v : json) (w : list str) :
  findJsonFragments text = Return (v, w) ->
  (w = [] <-> trim text = [] \/ JSON_parse text = Parsed v)
  /\ (forall e, trim text <> [] -> JSON_parse text = SyntaxError e ->
      exists w', w = (lit "Invalid JSON: " ++ e) :: w').
Proof. apply findJsonFragments_warnings. Qed.

Lemma warnings_start_with_parse_error_witness :
  findJsonFragments (lit "Here is data: {'x': 5} end.")
  = Return (JObject [(lit "x", JNumber (Num 5 0))],
            [lit "Invalid JSON: " ++ syntaxErrorMessage;
             lit "Could not determine JSON structure"])
  /\ ([lit "Invalid JSON: " ++ syntaxErrorMessage;
       lit "Could not determine JSON structure"] = []
      <-> trim (lit "Here is data: {'x': 5} end.") = []
          \/ JSON_parse (lit "Here is data: {'x': 5} end.")
             = Parsed (JObject [(lit "x", JNumber (Num 5 0))])).
Proof.
  split; [vm_compute; reflexivity |].
  apply (warnings_start_with_parse_error (lit "Here is data: {'x': 5} end.")).
  vm_compute. reflexivity.
Defined.

(** X6. When the text is brace- or bracket-shaped and does not parse,
    every line that the first pass flags has added at least one warning:
    the result carries at least one warning more than there are flagged
    lines. *)
Theorem warnings_cover_flagged_lines (text e : str) (v : json) (w : list str) :
  trim text <> [] -> JSON_parse text = SyntaxError e ->
  shape text <> (false, false) ->
  findJsonFragments text = Return (v, w) ->
  (1 + length (corruptLineNumbers
                 (firstPass JSON_parse (shape text).1
                            [lit "Invalid JSON: " ++ e] text))
   <= length w)%nat.
Proof.
  intros Hne He Hshape H. unfold findJsonFragments in H.
  destruct (Z_le_gt_dec (str_length text) maxSize) as [Hlen | Hlen].
  2:{ rewrite findJsonFragmentsWith_oversize in H by assumption. discriminate. }
  rewrite (findJsonFragmentsWith_invalid JSON_parse text e Hne Hlen He) in H.
  cbv zeta in H.
  destruct (firstPass_invariant JSON_parse (shape text).1
              [lit "Invalid JSON: " ++ e] text) as [(extra & Hw & Hcount & _) _].
  destruct (shape text) as [isObject isArray]. simpl in Hw, Hcount |- *.
  destruct isObject, isArray; try congruence; simpl in H;
    (destruct (JSON_parse (reconstruct _ _ _ _));
     [| destruct (truthy _)]; injection H as _ <-;
     rewrite Hw, ?length_app; simpl; rewrite ?length_app; simpl; lia).
Qed.

Lemma warnings_cover_flagged_lines_witness :
  trim brokenLineDocument <> []
  /\ JSON_parse brokenLineDocument = SyntaxError syntaxErrorMessage
  /\ shape brokenLineDocument <> (false, false)
  /\ (1 + length (corruptLineNumbers
                    (firstPass JSON_parse (shape brokenLineDocument).1
                               [lit "Invalid JSON: " ++ syntaxErrorMessage]
                               brokenLineDocument))
      <= 5)%nat.
Proof.
  split; [vm_compute; discriminate |]. split; [vm_compute; reflexivity |].
  split; [vm_compute; discriminate |].
  apply (warnings_cover_flagged_lines brokenLineDocument syntaxErrorMessage JNull
           [lit "Invalid JSON: " ++ syntaxErrorMessage;
            lit "Potentially corrupt JSON at line 1";
            lit "Mismatched brackets at line 3";
            lit "Potentially corrupt JSON at line 3";
            lit "Could not recover any valid JSON"]);
    [vm_compute; discriminate | vm_compute; reflexivity | vm_compute; discriminate
    | vm_compute; reflexivity].
Defined.

(** ** The shape of a recovered value *)

Lemma parseMembers_object (pv : str -> option (json * str)) (k : nat) :
  forall s acc v rest,
    parseMembers pv k s acc = Some (v, rest) -> exists props, v = JObject props.
Proof.
  induction k as [|k IH]; intros s acc v rest; cbn [parseMembers]; [discriminate |].
  destruct s as [|q s0]; [discriminate |].
  destruct (q =? 34); [| discriminate].
  destruct (parseChars s0) as [[key s1] |]; [| discriminate].
  destruct (skipWs s1) as [|colon s2]; [discriminate |].
  destruct (colon =? 58); [| discriminate].
  destruct (pv (skipWs s2)) as [[x s3] |]; [| discriminate].
  destruct (skipWs s3) as [|d s4]; [discriminate |].
  destruct (d =? 44); [apply IH |].
  destruct (d =? 125); [| discriminate]. intros [= <- _]. eauto.
Qed.

Lemma parseElements_array (pv : str -> option (json * str)) (k : nat) :
  forall s acc v rest,
    parseElements pv k s acc = Some (v, rest) -> exists items, v = JArray items.
Proof.
  induction k as [|k IH]; intros s acc v rest; cbn [parseElements]; [discriminate |].
  destruct (pv s) as [[x s1] |]; [| discriminate].
  destruct (skipWs s1) as [|d s2]; [discriminate |].
  destruct (d =? 44); [apply IH |].
  destruct (d =? 93); [| discriminate]. intros [= <- _]. eauto.
Qed.

Lemma parseValue_composite (n : nat) (c : N) (r : str) (v : json) (rest : str) :
  c = 123 \/ c = 91 ->
  parseValue n (c :: r) = Some (v, rest) -> isComposite v = true.
Proof.
  intros Hc E. destruct n as [|n]; [discriminate |].
  cbn [parseValue] in E. destruct Hc; subst c.
  - change (123 =? 123) with true in E. cbv iota in E.
    destruct (skipWs r) as [|c1 r1]; [discriminate |].
    destruct (c1 =? 125); [injection E as <- _; reflexivity |].
    apply parseMembers_object in E as [props ->]. reflexivity.
  - change (91 =? 123) with false in E. change (91 =? 91) with true in E.
    cbv iota in E.
    destruct (skipWs r) as [|c1 r1]; [discriminate |].
    destruct (c1 =? 93); [injection E as <- _; reflexivity |].
    apply parseElements_array in E as [items ->]. reflexivity.
Qed.

(** A text that opens with a brace or a square bracket parses, if at all,
    to an object or an array. *)
Lemma JSON_parse_composite (s : str) (v : json) :
  head s = Some 123 \/ head s = Some 91 ->
  JSON_parse s = Parsed v -> isComposite v = true.
Proof.
  intros Hhead. unfold JSON_parse.
  destruct s as [|c r]; [destruct Hhead; discriminate |].
  assert (Hc : c = 123 \/ c = 91) by (simpl in Hhead; destruct Hhead; [left | right]; congruence).
  replace (skipWs (c :: r)) with (c :: r)
    by (destruct Hc; subst; reflexivity).
  destruct (parseValue _ (c :: r)) as [[x rest] |] eqn:E; [| discriminate].
  destruct (skipWs rest); [| discriminate]. intros [= <-].
  eapply parseValue_composite; eassumption.
Qed.

Lemma walkMatches_head (o c : N) (text m : str) :
  m ∈ walkMatches o c text -> head m = Some o.
Proof.
  unfold walkMatches. intros H. apply list_elem_of_fmap in H as (p & -> & Hp).
  apply scanFrom_matches in Hp as (s' & rest & Hf & ->).
  destruct s' as [|x r]; [discriminate |]. cbn [walkAt] in Hf.
  destruct (N.eqb_spec x o) as [-> | _]; [| discriminate].
  apply closing_shorter in Hf.
  replace (length (o :: r) - length rest)%nat with (S (length r - length rest))
    by (simpl; lia).
  reflexivity.
Qed.

Lemma candidates_head (text m : str) :
  m ∈ candidates text -> head m = Some 123 \/ head m = Some 91.
Proof.
  unfold candidates. rewrite String_match_object, String_match_array.
  intros H. apply elem_of_app in H as [H | H]; apply walkMatches_head in H; auto.
Qed.

Lemma rebuildLine_prefix (isObject : bool) (corrupt : list N) (total : N)
    (lines : list str) :
  forall st, exists more,
    (fold_left (rebuildLine isObject corrupt total) lines st).1.1 = st.1.1 ++ more.
Proof.
  induction lines as [|line lines IH]; intros [[acc first] n]; cbn [fold_left].
  - exists []. simpl. now rewrite app_nil_r.
  - destruct (IH (rebuildLine isObject corrupt total (acc, first, n) line))
      as [more Hmore].
    rewrite Hmore. unfold rebuildLine. cbn [fst]. rewrite <- app_assoc. eauto.
Qed.

Lemma reconstruct_head (isObject isArray : bool) (corrupt : list N)
    (lines : list str) :
  isObject || isArray = true ->
  head (reconstruct isObject isArray corrupt lines)
  = Some (if isObject then 123 else 91).
Proof.
  intros H. unfold reconstruct.
  destruct (rebuildLine_prefix isObject corrupt (N.of_nat (length lines)) lines
              (if isObject then lit "{
" else if isArray then lit "[
" else [], true, 0)) as [more Hmore].
  destruct (fold_left _ lines _) as [[body first] n]. simpl in Hmore. subst body.
  destruct isObject; [reflexivity |]. destruct isArray; [reflexivity | discriminate].
Qed.

Lemma selected_composite (text : str) :
  (fold_left (tryMatch JSON_parse) (candidates text) ([], JNull)).2 = JNull
  \/ isComposite (fold_left (tryMatch JSON_parse) (candidates text) ([], JNull)).2
     = true.
Proof.
  destruct (fold_tryMatch_selected JSON_parse (candidates text) ([], JNull))
    as [[-> _] | (l1 & m & l2 & v & Hl & Hm & -> & _)]; [left; reflexivity | right].
  simpl. eapply JSON_parse_composite; [| exact Hm].
  apply candidates_head with (text := text). rewrite Hl.
  apply elem_of_app. right. apply list_elem_of_here.
Qed.

Lemma recovered_composite_core (text e : str) :
  JSON_parse text = SyntaxError e ->
  (forall v w, findJsonFragments text = Return (v, w) ->
               v = JNull \/ isComposite v = true)
  /\ (forall v, extractJson text = Return v -> v = JNull \/ isComposite v = true).
Proof.
  intros He.
  assert (Hex : forall v, extractJson text = Return v ->
                          v = JNull \/ isComposite v = true).
  { intros v H. unfold extractJson in H.
    destruct (decide (trim text = [])) as [Hblank | Hne].
    { rewrite extractJsonWith_blank in H by assumption. left. congruence. }
    destruct (Z_le_gt_dec (str_length text) maxSize) as [Hlen | Hlen].
    2:{ rewrite extractJsonWith_oversize in H by assumption. discriminate. }
    rewrite (extractJsonWith_fallback JSON_parse text e Hne Hlen He) in H.
    injection H as <-. apply selected_composite. }
  split; [| exact Hex].
  intros v w H. unfold findJsonFragments in H.
  destruct (decide (trim text = [])) as [Hblank | Hne].
  { rewrite findJsonFragmentsWith_blank in H by assumption. left. congruence. }
  destruct (Z_le_gt_dec (str_length text) maxSize) as [Hlen | Hlen].
  2:{ rewrite findJsonFragmentsWith_oversize in H by assumption. discriminate. }
  rewrite (findJsonFragmentsWith_invalid JSON_parse text e Hne Hlen He) in H.
  cbv zeta in H. destruct (shape text) as [isObject isArray].
  destruct (negb isObject && negb isArray) eqn:Eshape.
  - injection H as <- _. apply selected_composite.
  - destruct (JSON_parse (reconstruct _ _ _ _)) as [result |] eqn:Er.
    + injection H as <- _. right.
      eapply JSON_parse_composite; [| exact Er].
      rewrite reconstruct_head
        by (destruct isObject, isArray; simpl in *; congruence).
      destruct isObject; auto.
    + destruct (truthy _); injection H as <- _; [apply selected_composite | auto].
Qed.

(** X7. On a text that does not parse as a whole, [findJsonFragments] and
    [extractJson] never return a bare primitive: the value is null, an
    array or an object, so that it is truthy exactly when it is not
    null. *)
Theorem recovered_value_is_composite (text e : str) :
  JSON_parse text = SyntaxError e ->
  (forall v w, findJsonFragments text = Return (v, w) ->
               v = JNull \/ isComposite v = true)
  /\ (forall v, extractJson text = Return v -> v = JNull \/ isComposite v = true).
Proof. apply recovered_composite_core. Qed.

Lemma recovered_value_is_composite_witness :
  JSON_parse (lit "Here is data: {'x': 5} end.") = SyntaxError syntaxErrorMessage
  /\ (JObject [(lit "x", JNumber (Num 5 0))] = JNull
      \/ isComposite (JObject [(lit "x", JNumber (Num 5 0))]) = true).
Proof.
  split; [vm_compute; reflexivity |].
  apply (proj2 (recovered_value_is_composite (lit "Here is data: {'x': 5} end.")
                  syntaxErrorMessage ltac:(vm_compute; reflexivity))).
  vm_compute. reflexivity.
Defined.

Lemma candidates_nonempty (text m : str) : m ∈ candidates text -> m <> [].
Proof. intros H. apply candidates_head in H. destruct m; [destruct H |]; discriminate. Qed.

(** X8. On a text that does not parse as a whole, [extractJson] returns
    null exactly when none of the candidate fragments parses: whenever a
    candidate parses, some fragment is returned. *)
Theorem extractJson_null_iff (text e : str) :
  trim text <> [] -> (str_length text <= maxSize)%Z ->
  JSON_parse text = SyntaxError e ->
  extractJson text = Return JNull
  <-> forall m, m ∈ candidates text -> ~ valid JSON_parse m.
Proof.
  intros Hne Hlen He. unfold extractJson.
  rewrite (extractJsonWith_fallback JSON_parse text e Hne Hlen He).
  destruct (fold_tryMatch_selected JSON_parse (candidates text) ([], JNull))
    as [[-> Hmax] | (l1 & m & l2 & v & Hl & Hm & -> & _)]; simpl.
  - split; [| reflexivity]. intros _ m Hin Hvalid.
    specialize (Hmax m Hin Hvalid). apply candidates_nonempty in Hin.
    destruct m; [contradiction | simpl in Hmax; lia].
  - assert (Hin : m ∈ candidates text).
    { rewrite Hl. apply elem_of_app. right. apply list_elem_of_here. }
    split.
    + intros [= ->]. apply candidates_head in Hin.
      apply (JSON_parse_composite m JNull Hin) in Hm. discriminate.
    + intros H. exfalso. apply (H m Hin). exists v. exact Hm.
Qed.

Lemma extractJson_null_iff_witness :
  trim (lit "not json at all") <> []
  /\ (str_length (lit "not json at all") <= maxSize)%Z
  /\ JSON_parse (lit "not json at all") = SyntaxError syntaxErrorMessage
  /\ extractJson (lit "not json at all") = Return JNull.
Proof.
  split; [vm_compute; discriminate |]. split; [vm_compute; discriminate |].
  split; [vm_compute; reflexivity |].
  apply (extractJson_null_iff (lit "not json at all") syntaxErrorMessage);
    [vm_compute; discriminate | vm_compute; discriminate | vm_compute; reflexivity |].
  intros m Hm. vm_compute in Hm. inversion Hm.
Defined.

(** ** A fragment embedded in prose *)

Lemma closing_none (o c : N) (s : str) :
  forall d room, c ∉ s -> closing o c (S d) room s = None.
Proof.
  induction s as [|x r IH]; intros d room Hc; cbn [closing]; [reflexivity |].
  apply not_elem_of_cons in Hc as [Hx Hc].
  destruct (N.eqb_spec x c) as [-> | _]; [congruence |].
  destruct (x =? o); [destruct room |]; auto.
Qed.

(** When the text after [a] holds no closing delimiter, a walk that closes
    does so inside [a]. *)
Lemma closing_suffix (o c : N) (post : str) (a : str) :
  c ∉ post ->
  forall d room rest,
    closing o c (S d) room (a ++ post) = Some rest ->
    exists a', rest = a' ++ post /\ (length a' < length a)%nat.
Proof.
  intros Hpost. induction a as [|x a IH]; intros d room rest H.
  - simpl in H. rewrite closing_none in H by assumption. discriminate.
  - cbn [app closing] in H.
    destruct (x =? c).
    + destruct d as [|d].
      * rewrite closing_done in H. injection H as <-. exists a. simpl. auto.
      * apply IH in H as (a' & -> & Hlen). exists a'. simpl. split; [reflexivity | lia].
    + destruct (x =? o).
      * destruct room as [|room']; [discriminate |].
        apply IH in H as (a' & -> & Hlen). exists a'. simpl. split; [reflexivity | lia].
      * apply IH in H as (a' & -> & Hlen). exists a'. simpl. split; [reflexivity | lia].
Qed.

(** The matches found in a text whose tail holds no closing delimiter are
    no longer than the part before that tail. *)
Lemma scanFrom_bounded (o c : N) (room : nat) (n : nat) :
  forall offset a post p,
    c ∉ post ->
    p ∈ scanFrom (walkAt o c room) n offset (a ++ post) ->
    (length p.2 <= length a)%nat.
Proof.
  induction n as [|n IH]; intros offset a post p Hpost; cbn [scanFrom].
  { intros H. inversion H. }
  assert (Hskip : forall off, p ∈ match a ++ post with
                           | [] => []
                           | _ :: s' => scanFrom (walkAt o c room) n off s'
                           end -> (length p.2 <= length a)%nat).
  { intros off H. destruct a as [|x a1]; simpl in H.
    - destruct post as [|y post']; [inversion H |].
      apply (IH off [] post' p) in H; [exact H |].
      apply not_elem_of_cons in Hpost. tauto.
    - apply (IH off a1 post p Hpost) in H. simpl. lia. }
  destruct (walkAt o c room (a ++ post)) as [rest |] eqn:E; [| apply Hskip].
  destruct a as [|x a1].
  { exfalso. simpl in E. destruct post as [|y post']; [discriminate |].
    cbn [walkAt] in E. destruct (y =? o); [| discriminate].
    apply not_elem_of_cons in Hpost as [_ Hpost].
    rewrite closing_none in E by assumption. discriminate. }
  cbn [app walkAt] in E. destruct (x =? o); [| discriminate].
  apply (closing_suffix o c post a1 Hpost) in E as (a' & -> & Hlen).
  replace (length ((x :: a1) ++ post) - length (a' ++ post))%nat
    with (S (length a1 - length a')) by (simpl; rewrite !length_app; lia).
  intros H. apply elem_of_cons in H as [-> | H].
  - cbn [snd]. rewrite length_take. simpl. lia.
  - apply (IH _ a' post p Hpost) in H. simpl. lia.
Qed.

Lemma scanFrom_S (f : str -> option str) (n offset : nat) (s : str) :
  scanFrom f (S n) offset s
  = match f s with
    | Some rest =>
        (offset, take (length s - length rest) s) ::
          match (length s - length rest)%nat with
          | O => match s with
                 | [] => []
                 | _ :: s' => scanFrom f n (S offset) s'
                 end
          | S _ => scanFrom f n (offset + (length s - length rest)) rest
          end
    | None =>
        match s with
        | [] => []
        | _ :: s' => scanFrom f n (S offset) s'
        end
    end.
Proof. reflexivity. Qed.

Lemma scanFrom_walk_no_opening (o c : N) (room : nat) (n : nat) :
  forall offset s, o ∉ s -> scanFrom (walkAt o c room) n offset s = [].
Proof.
  induction n as [|n IH]; intros offset s Hs; [reflexivity |].
  cbn [scanFrom]. destruct s as [|x r]; [reflexivity |].
  apply not_elem_of_cons in Hs as [Hx Hs]. cbn [walkAt].
  destruct (N.eqb_spec x o); [congruence |]. now apply IH.
Qed.

Lemma fold_tryMatch_skip (parse : str -> parsed) (l : list str) :
  forall st,
    (forall m, m ∈ l -> (length m <= length st.1)%nat) ->
    fold_left (tryMatch parse) l st = st.
Proof.
  induction l as [|m l IH]; intros st H; [reflexivity |]. simpl.
  assert (Hm : tryMatch parse st m = st).
  { unfold tryMatch.
    destruct (Nat.leb_spec (length m) (length st.1)) as [_ | Hlt]; [reflexivity |].
    specialize (H m (list_elem_of_here _ _)). lia. }
  rewrite Hm. apply IH. intros m' Hm'. apply H. now apply list_elem_of_further.
Qed.

Lemma trim_nonblank (s : str) (x : N) :
  x ∈ s -> isWhiteSpace x = false -> trim s <> [].
Proof.
  intros Hx Hws Hnil. apply trim_nil in Hnil.
  rewrite Forall_forall in Hnil. apply Hnil in Hx. congruence.
Qed.

(** X9. A JSON object embedded in prose is recovered: when the text is a
    prefix without brace or square bracket, then a fragment that opens
    with a brace, closes where the three-level walk closes and parses on
    its own, then a suffix without opening brace or closing square bracket,
    and the text as a whole does not parse, [extractJson] returns the
    value of the fragment; and when the text is not brace- or
    bracket-shaped, [findJsonFragments] returns that value with the two
    warnings of the extraction path. *)
Theorem embedded_object_is_extracted (pre body post e : str) (v : json) :
  123 ∉ pre -> 91 ∉ pre -> 123 ∉ post -> 93 ∉ post ->
  closing 123 125 1 2 (body ++ post) = Some post ->
  JSON_parse (123 :: body) = Parsed v ->
  JSON_parse (pre ++ 123 :: body ++ post) = SyntaxError e ->
  (str_length (pre ++ 123%N :: body ++ post) <= maxSize)%Z ->
  extractJson (pre ++ 123 :: body ++ post) = Return v
  /\ (shape (pre ++ 123 :: body ++ post) = (false, false) ->
      findJsonFragments (pre ++ 123 :: body ++ post)
      = Return (v, [lit "Invalid JSON: " ++ e;
                    lit "Could not determine JSON structure"])).
Proof.
  intros Hpre1 Hpre2 Hpost1 Hpost2 Hclose Hv He Hlen.
  set (text := pre ++ 123 :: body ++ post) in *.
  assert (Hne : trim text <> []).
  { apply (trim_nonblank text 123); [| reflexivity].
    unfold text. apply elem_of_app. right. apply list_elem_of_here. }
  assert (Hsel : (fold_left (tryMatch JSON_parse) (candidates text) ([], JNull)).2 = v).
  { unfold candidates. rewrite String_match_object, String_match_array.
    assert (Hobj : walkMatches 123 125 text = [123 :: body]).
    { unfold walkMatches, text.
      replace (S (length (pre ++ 123 :: body ++ post)))
        with (length pre + S (S (length (body ++ post))))%nat
        by (repeat (rewrite ?length_app; cbn [length]); lia).
      rewrite scanFrom_skip by assumption.
      rewrite scanFrom_S. cbn [walkAt]. rewrite N.eqb_refl, Hclose.
      replace (length (123%N :: body ++ post) - length post)%nat with (S (length body))
        by (simpl; rewrite length_app; lia).
      cbn [take]. rewrite take_app_length.
      now rewrite scanFrom_walk_no_opening. }
    rewrite Hobj, fold_left_app. simpl.
    unfold tryMatch at 2. simpl. rewrite Hv.
    rewrite fold_tryMatch_skip; [reflexivity |].
    intros m Hm. unfold walkMatches in Hm.
    apply list_elem_of_fmap in Hm as (p & -> & Hp). unfold text in Hp.
    replace (S (length (pre ++ 123 :: body ++ post)))
      with (length pre + S (S (length (body ++ post))))%nat in Hp
      by (repeat (rewrite ?length_app; cbn [length]); lia).
    rewrite scanFrom_skip in Hp by assumption.
    change (123 :: body ++ post) with ((123 :: body) ++ post) in Hp.
    apply scanFrom_bounded in Hp; assumption. }
  split.
  - unfold extractJson.
    rewrite (extractJsonWith_fallback JSON_parse text e Hne Hlen He). now rewrite Hsel.
  - intros Hshape. unfold findJsonFragments.
    rewrite (findJsonFragmentsWith_invalid JSON_parse text e Hne Hlen He).
    cbv zeta. rewrite Hshape, Hsel. reflexivity.
Qed.

Lemma embedded_object_is_extracted_witness :
  extractJson (lit "Here is data: {'x': 5} end.")
  = Return (JObject [(lit "x", JNumber (Num 5 0))]).
Proof.
  apply (embedded_object_is_extracted (lit "Here is data: ") (lit "'x': 5}")
           (lit " end.") syntaxErrorMessage (JObject [(lit "x", JNumber (Num 5 0))]));
    try (vm_compute; reflexivity); try (vm_compute; discriminate);
    vm_compute; intros H;
    repeat (apply elem_of_cons in H as [H | H]; [discriminate |]); inversion H.
Defined.

(** ** The size guard of [extractJson] *)

Lemma size_guard_throws_iff_core (parse : str -> parsed) (text : str) :
  forall m, findJsonFragmentsWith parse text = Throw m -> m = sizeError.
Proof.
  intros m H.
  destruct (decide (trim text = [])) as [Hblank | Hne].
  { rewrite findJsonFragmentsWith_blank in H by assumption. discriminate. }
  destruct (Z_le_gt_dec (str_length text) maxSize) as [Hlen | Hlen].
  - destruct (findJsonFragmentsWith_returns parse text Hlen) as [r Hr]. congruence.
  - rewrite findJsonFragmentsWith_oversize in H by assumption. congruence.
Qed.


(** X10. [extractJson] raises exactly when the text is not blank and is
    longer than 10,000,000 code units; the error is the size error,
    whatever the parser would answer, and every other text gives a
    value. *)
Theorem extractJson_throws_iff (parse : str -> parsed) (text : str) :
  (extractJsonWith parse text = Throw sizeError
   <-> trim text <> [] /\ (str_length text > maxSize)%Z)
  /\ (forall m, extractJsonWith parse text = Throw m -> m = sizeError).
Proof.
  destruct (decide (trim text = [])) as [Hblank | Hne].
  { rewrite (extractJsonWith_blank parse text Hblank).
    split; [| congruence]. split; [congruence | tauto]. }
  destruct (Z_le_gt_dec (str_length text) maxSize) as [Hlen | Hlen].
  - destruct (extractJsonWith_returns parse text Hlen) as [v ->].
    split; [| congruence]. split; [congruence | lia].
  - rewrite (extractJsonWith_oversize parse text Hne Hlen).
    split; [tauto | congruence].
Qed.

(** ** [processJson] *)

(** X11. The viewer applies the size limit only to text that fails strict
    parsing: valid JSON text of any length is returned as parsed, with no
    error, no warning and no recovered value; text that is longer than
    the limit, not blank and not valid JSON gives the size error, returns
    null and leaves the recovered value of the state as it was. *)
Theorem processJson_size_limit (st : viewState) (text : str) :
  (forall v, JSON_parse text = Parsed v ->
             processJson st text = (ViewState None [] JNull, v))
  /\ (forall e, trim text <> [] -> (str_length text > maxSize)%Z ->
                JSON_parse text = SyntaxError e ->
                processJson st text
                = (ViewState (Some sizeError) [] (vsRecoveredJson st), JNull)).
Proof.
  unfold processJson. split.
  - intros v Hv. destruct (isEmpty (trim text)) eqn:E.
    + apply isEmpty_true, JSON_parse_blank in E. congruence.
    + now rewrite Hv.
  - intros e Hne Hlen He. unfold findJsonFragments.
    rewrite (findJsonFragmentsWith_oversize JSON_parse text Hne Hlen).
    apply isEmpty_false in Hne. now rewrite Hne, He.
Qed.

Lemma processJson_size_limit_witness :
  processJson (ViewState None [] JNull) (lit "[1]")
  = (ViewState None [] JNull, JArray [JNumber (Num 1 0)]).
Proof.
  apply (proj1 (processJson_size_limit (ViewState None [] JNull) (lit "[1]"))).
  vm_compute. reflexivity.
Defined.

(** The numeral 1 after ten million spaces is longer than the limit and
    is shown as parsed. *)
Example processJson_oversize_valid (st : viewState) :
  processJson st (spaces (Z.to_nat 10000000) ++ lit "1")
  = (ViewState None [] JNull, JNumber (Num 1 0)).
Proof.
  unfold processJson. rewrite trim_spaces_one, JSON_parse_spaces_one. reflexivity.
Qed.

(** X12. [processJson] sets an error exactly when the text is not blank,
    does not parse, and nothing is recovered: the value returned is then
    null, the error is the size error or [No valid JSON found in the
    input], and the recovered value of the state is left as it was. *)
Theorem processJson_error_iff (st : viewState) (text : str) :
  (vsError (processJson st text).1 <> None
   <-> trim text <> [] /\ (exists e, JSON_parse text = SyntaxError e)
       /\ (processJson st text).2 = JNull)
  /\ (forall m, vsError (processJson st text).1 = Some m ->
        (m = sizeError \/ m = lit "No valid JSON found in the input")
        /\ vsRecoveredJson (processJson st text).1 = vsRecoveredJson st).
Proof.
  unfold processJson.
  destruct (isEmpty (trim text)) eqn:Eb.
  { apply isEmpty_true in Eb. simpl. split; [| discriminate].
    split; [congruence | intros [? _]; contradiction]. }
  apply isEmpty_false in Eb.
  destruct (JSON_parse text) as [v | e] eqn:Ep.
  { simpl. split; [| discriminate].
    split; [congruence | intros (_ & [e He] & _); discriminate]. }
  destruct (findJsonFragments text) as [[result w] | m] eqn:Ef.
  - destruct (truthy result) eqn:Et.
    + assert (Hr : result <> JNull) by (intros ->; discriminate).
      assert (Herr : vsError (if (0 <? length w)%nat
                              then ViewState None w (vsRecoveredJson st)
                              else ViewState None [] (vsRecoveredJson st)) = None)
        by (destruct (0 <? length w)%nat; reflexivity).
      simpl. rewrite Herr. split; [| discriminate].
      split; [congruence | intros (_ & _ & ?); contradiction].
    + simpl. split.
      * split; [eauto | discriminate].
      * intros m [= <-]. split; [auto |].
        destruct (0 <? length w)%nat; reflexivity.
  - simpl. split; [split; [eauto | discriminate] |].
    intros m' [= <-]. split; [| reflexivity]. left.
    apply (size_guard_throws_iff_core JSON_parse text m Ef).
Qed.

(** X13. When the text does not parse and [processJson] returns a value
    that is not null, that value is an array or an object, it is stored as
    the recovered value, no error is set, and the warnings of the state
    start with the complaint of the parser. *)
Theorem processJson_recovered (st : viewState) (text e : str) :
  JSON_parse text = SyntaxError e ->
  (processJson st text).2 <> JNull ->
  isComposite (processJson st text).2 = true
  /\ vsRecoveredJson (processJson st text).1 = (processJson st text).2
  /\ vsError (processJson st text).1 = None
  /\ exists w', vsWarnings (processJson st text).1
                = (lit "Invalid JSON: " ++ e) :: w'.
Proof.
  intros He. unfold processJson.
  destruct (isEmpty (trim text)) eqn:Eb; [simpl; congruence |].
  apply isEmpty_false in Eb. rewrite He.
  destruct (findJsonFragments text) as [[result w] | m] eqn:Ef; [| simpl; congruence].
  destruct (truthy result) eqn:Et; [| simpl; congruence].
  destruct (proj2 (findJsonFragments_warnings text result w Ef) e Eb He) as [w' ->].
  simpl. intros Hr.
  destruct (proj1 (recovered_composite_core text e He) result _ Ef) as [-> | Hc];
    [discriminate | eauto].
Qed.

Lemma processJson_recovered_witness :
  JSON_parse (lit "Here is data: {'x': 5} end.") = SyntaxError syntaxErrorMessage
  /\ vsRecoveredJson
       (processJson (ViewState None [] JNull) (lit "Here is data: {'x': 5} end.")).1
     = (processJson (ViewState None [] JNull) (lit "Here is data: {'x': 5} end.")).2.
Proof.
  split; [vm_compute; reflexivity |].
  apply (processJson_recovered (ViewState None [] JNull)
           (lit "Here is data: {'x': 5} end.") syntaxErrorMessage);
    [vm_compute; reflexivity | vm_compute; discriminate].
Defined.

(** ** Candidates are substrings *)

Lemma closing_consumes (o c : N) (s : str) :
  forall d room rest,
    closing o c d room s = Some rest -> exists m, s = m ++ rest.
Proof.
  induction s as [|x r IH]; intros d room rest H.
  - destruct d; [| discriminate]. injection H as <-. exists []. reflexivity.
  - destruct d as [|d]; [injection H as <-; exists []; reflexivity |].
    cbn [closing] in H.
    assert (Hrec : forall d' room', closing o c d' room' r = Some rest ->
                                    exists m, x :: r = m ++ rest).
    { intros d' room' H'. apply IH in H' as [m ->]. exists (x :: m). reflexivity. }
    destruct (x =? c); [eauto |].
    destruct (x =? o); [destruct room; [discriminate | eauto] | eauto].
Qed.

Lemma scanFrom_substrings (o c : N) (room : nat) (n : nat) :
  forall offset s p,
    p ∈ scanFrom (walkAt o c room) n offset s ->
    exists before after, s = before ++ p.2 ++ after.
Proof.
  induction n as [|n IH]; intros offset s p; [intros H; inversion H |].
  rewrite scanFrom_S.
  assert (Hskip : forall off, p ∈ match s with
                           | [] => []
                           | _ :: s' => scanFrom (walkAt o c room) n off s'
                           end -> exists before after, s = before ++ p.2 ++ after).
  { intros off H. destruct s as [|x s']; [inversion H |].
    apply IH in H as (before & after & ->). exists (x :: before), after. reflexivity. }
  destruct (walkAt o c room s) as [rest |] eqn:E; [| apply Hskip].
  assert (Hm : exists m, s = m ++ rest).
  { destruct s as [|x r]; [discriminate |]. cbn [walkAt] in E.
    destruct (x =? o); [| discriminate].
    apply closing_consumes in E as [m ->]. exists (x :: m). reflexivity. }
  destruct Hm as [m ->].
  replace (length (m ++ rest) - length rest)%nat with (length m)
    by (rewrite length_app; lia).
  rewrite take_app_length.
  intros H. apply elem_of_cons in H as [-> | H].
  - exists [], rest. reflexivity.
  - destruct (length m) eqn:El.
    + apply Hskip in H. exact H.
    + apply IH in H as (before & after & ->).
      exists (m ++ before), after. now rewrite <- app_assoc.
Qed.

Lemma candidates_substring (text m : str) :
  m ∈ candidates text -> exists before after, text = before ++ m ++ after.
Proof.
  unfold candidates. rewrite String_match_object, String_match_array.
  unfold walkMatches. intros H.
  apply elem_of_app in H as [H | H];
    apply list_elem_of_fmap in H as (p & -> & Hp);
    eapply scanFrom_substrings; eassumption.
Qed.

(** X14. On a text that does not parse as a whole, a value returned by
    [extractJson] that is not null is the parse of a contiguous substring
    of the text that opens with a brace or a square bracket. *)
Theorem extracted_value_is_substring_parse (text e : str) (v : json) :
  JSON_parse text = SyntaxError e ->
  extractJson text = Return v -> v <> JNull ->
  exists before m after,
    text = before ++ m ++ after
    /\ (head m = Some 123 \/ head m = Some 91)
    /\ JSON_parse m = Parsed v.
Proof.
  intros He H Hv.
  destruct (extractJsonWith_parsed JSON_parse text v H Hv) as (m & [-> | Hm] & Hp);
    [congruence |].
  destruct (candidates_substring text m Hm) as (before & after & Ht).
  exists before, m, after. split; [assumption |].
  split; [eapply candidates_head; eassumption | assumption].
Qed.

Lemma extracted_value_is_substring_parse_witness :
  exists before m after,
    lit "Here is data: {'x': 5} end." = before ++ m ++ after
    /\ (head m = Some 123 \/ head m = Some 91)
    /\ JSON_parse m = Parsed (JObject [(lit "x", JNumber (Num 5 0))]).
Proof.
  apply (extracted_value_is_substring_parse (lit "Here is data: {'x': 5} end.")
           syntaxErrorMessage);
    [vm_compute; reflexivity | vm_compute; reflexivity | discriminate].
Defined.

(** ** [safeStringify] and [JSON.stringify] *)

Local Close Scope N_scope.

Section Unshared.

Variable h : gmap nat object.

Lemma members_unshared
    (ser : gset nat -> value -> option (completion str * gset nat))
    (plain : value -> option (completion str))
    (vis : value -> option (list nat)) (colon : str)
    (avoid : list nat) :
  (forall x l seen,
      vis x = Some l -> NoDup l ->
      (forall a, a ∈ l -> a ∉ seen) -> (forall a, a ∈ l -> a ∉ avoid) ->
      exists s, ser seen x = Some (Return s, list_to_set l ∪ seen)
                /\ plain x = Some (Return s)) ->
  forall ms l seen seen0,
    visitsMembers vis ms = Some l -> NoDup l ->
    (forall a, a ∈ l -> a ∉ seen) -> (forall a, a ∈ l -> a ∉ avoid) ->
    exists partial,
      serializeMembers ser colon ms seen
      = Some (Return partial, list_to_set l ∪ seen)
      /\ serializeMembers
           (fun seen' x => match plain x with
                           | Some r => Some (r, seen')
                           | None => None
                           end) colon ms seen0
         = Some (Return partial, seen0).
Proof.
  intros Hser. induction ms as [|[key x] ms IH]; intros l seen seen0 Hvis Hnd Hseen Havoid.
  - injection Hvis as <-. exists []. split; [| reflexivity].
    simpl. f_equal. f_equal. set_solver.
  - cbn [visitsMembers] in Hvis.
    destruct (vis x) as [l1 |] eqn:E1; [| discriminate].
    destruct (visitsMembers vis ms) as [l2 |] eqn:E2; [| discriminate].
    injection Hvis as <-. apply NoDup_app in Hnd as (Hnd1 & Hdisj & Hnd2).
    destruct (Hser x l1 seen E1 Hnd1) as (s & Hs & Hp).
    { intros a Ha. apply Hseen, elem_of_app. auto. }
    { intros a Ha. apply Havoid, elem_of_app. auto. }
    destruct (IH l2 (list_to_set l1 ∪ seen) seen0 eq_refl Hnd2) as (partial & Hm & Hpm).
    { intros a Ha Hin. apply elem_of_union in Hin as [Hin | Hin].
      - apply elem_of_list_to_set in Hin. apply (Hdisj a Hin Ha).
      - apply (Hseen a); [apply elem_of_app; auto | assumption]. }
    { intros a Ha. apply Havoid, elem_of_app. auto. }
    cbn [serializeMembers]. rewrite Hs, Hm, Hp, Hpm.
    eexists. split; [| reflexivity].
    f_equal. f_equal. rewrite list_to_set_app_L. set_solver.
Qed.

(** On a value whose arrays and objects are each visited once, the
    replacer changes nothing: both serializers return the same text. *)
Lemma serializeProperty_unshared (m : nat) :
  forall n gap indent stack seen v l,
    m <= n -> visits m h v = Some l -> NoDup l ->
    (forall a, a ∈ l -> a ∉ seen) -> (forall a, a ∈ l -> a ∉ stack) ->
    exists s,
      serializeProperty n h gap indent stack seen v
      = Some (Return s, list_to_set l ∪ seen)
      /\ stringifyProperty n h gap indent stack v = Some (Return s).
Proof.
  induction m as [|m IH]; intros n gap indent stack seen v l Hn Hvis Hnd Hseen Hstack;
    [discriminate |].
  destruct n as [|n]; [lia |].
  cbn [visits] in Hvis.
  destruct v as [| b | x | s | a];
    try (injection Hvis as <-; cbn [serializeProperty replacer stringifyProperty];
         eexists; split; [f_equal; f_equal; set_solver | reflexivity]).
  destruct (h !! a) as [obj |] eqn:Ha; [| discriminate].
  destruct (visitsMembers (visits m h) (members obj)) as [l' |] eqn:El; [| discriminate].
  injection Hvis as <-. apply NoDup_cons in Hnd as [Hnotin Hnd].
  assert (Ha_seen : a ∉ seen) by (apply Hseen, list_elem_of_here).
  assert (Ha_stack : a ∉ stack) by (apply Hstack, list_elem_of_here).
  cbn [serializeProperty replacer stringifyProperty].
  rewrite bool_decide_eq_false_2 by assumption.
  rewrite Ha. rewrite !bool_decide_eq_false_2 by assumption.
  destruct (members_unshared
              (serializeProperty n h gap (indent ++ gap) (a :: stack))
              (stringifyProperty n h gap (indent ++ gap) (a :: stack))
              (visits m h) (if isEmpty gap then lit ":" else lit ": ")
              (a :: stack)) with (ms := members obj) (l := l')
              (seen := {[a]} ∪ seen) (seen0 := (∅ : gset nat))
    as (partial & Hs & Hp); try assumption.
  - intros x l seen' Hx Hndx Hs' Ha'.
    apply IH; [lia | assumption | assumption | assumption | assumption].
  - intros b Hb Hin. apply elem_of_union in Hin as [Hin | Hin].
    + apply elem_of_singleton in Hin as ->. contradiction.
    + apply (Hseen b); [now apply list_elem_of_further | assumption].
  - intros b Hb Hin. apply elem_of_cons in Hin as [-> | Hin]; [contradiction |].
    apply (Hstack b); [now apply list_elem_of_further | assumption].
  - rewrite Hs, Hp. eexists. split; [| reflexivity].
    f_equal. f_equal. set_solver.
Qed.

End Unshared.

(** X15. On a value in which every array and object is visited exactly
    once, neither shared nor on a cycle, [safeStringify] returns a text,
    and it is the text that [JSON.stringify(value, null, indent)] returns:
    the replacer changes nothing. *)
Theorem safeStringify_unshared (h : gmap nat object) (v : value) (indent : nat)
    (l : list nat) :
  visits (S (size h)) h v = Some l -> NoDup l ->
  exists s, safeStringify h v indent = Some (Return s)
            /\ JSON_stringify h v indent = Some (Return s).
Proof.
  intros Hvis Hnd. unfold safeStringify, JSON_stringify.
  destruct (serializeProperty_unshared h (S (size h)) (S (size h))
              (spaces (Nat.min indent 10)) [] [] ∅ v l) as (s & Hs & Hp);
    try assumption; try lia.
  - intros a _. apply not_elem_of_empty.
  - intros a _. apply not_elem_of_nil.
  - exists s. rewrite Hs, Hp. auto.
Qed.

Lemma safeStringify_unshared_witness :
  visits (S (size treeHeap)) treeHeap (VRef 0) = Some [0; 1; 2]
  /\ NoDup [0; 1; 2]
  /\ exists s, safeStringify treeHeap (VRef 0) 2 = Some (Return s)
               /\ JSON_stringify treeHeap (VRef 0) 2 = Some (Return s).
Proof.
  assert (Hnd : NoDup [0; 1; 2]).
  { repeat constructor; intros H;
      repeat (apply elem_of_cons in H as [H | H]; [discriminate |]); inversion H. }
  split; [vm_compute; reflexivity |]. split; [exact Hnd |].
  apply (safeStringify_unshared treeHeap (VRef 0) 2 [0; 1; 2]);
    [vm_compute; reflexivity | exact Hnd].
Defined.

(** The serializer without replacer raises on the cyclic value on which
    [safeStringify] returns. *)
Example JSON_stringify_cyclic :
  JSON_stringify cyclicHeap (VRef 0) 2 = Some (Throw circularError).
Proof. vm_compute. reflexivity. Qed.

(** The bound of [JSON_stringify] is never reached on a closed store: it
    returns a text or raises. *)
Section PlainTotal.

Variable h : gmap nat object.
Hypothesis h_closed : closed h = true.

Lemma serializeMembers_total
    (ser : gset nat -> value -> option (completion str * gset nat)) (colon : str) :
  (forall seen x, refOk h x = true -> exists r, ser seen x = Some r) ->
  forall ms seen,
    Forall (fun m => refOk h m.2 = true) ms ->
    exists r, serializeMembers ser colon ms seen = Some r.
Proof.
  intros Hser. induction ms as [|[key x] ms IH]; intros seen Hms; [simpl; eauto |].
  inversion Hms as [|? ? Hx Hrest]; subst. simpl in Hx.
  cbn [serializeMembers].
  destruct (Hser seen x Hx) as [[[s | e] seen'] ->]; [| eauto].
  destruct (IH seen' Hrest) as [[[partial | e] seen''] ->]; eauto.
Qed.

Lemma stringifyProperty_total (n : nat) :
  forall gap indent stack v,
    refOk h v = true ->
    size (dom h ∖ list_to_set stack) < n ->
    exists r, stringifyProperty n h gap indent stack v = Some r.
Proof.
  induction n as [|n IH]; intros gap indent stack v Hv Hsize; [lia |].
  destruct v as [| b | x | s | a]; cbn [stringifyProperty]; eauto.
  simpl in Hv. apply bool_decide_eq_true_1 in Hv as [obj Hobj]. rewrite Hobj.
  destruct (decide (a ∈ stack)) as [Hin | Hnot].
  { rewrite bool_decide_eq_true_2 by assumption. eauto. }
  rewrite bool_decide_eq_false_2 by assumption.
  assert (Hdom : a ∈ dom h) by (apply elem_of_dom; eauto).
  destruct (serializeMembers_total
              (fun seen x =>
                 match stringifyProperty n h gap (indent ++ gap) (a :: stack) x with
                 | Some r => Some (r, seen)
                 | None => None
                 end)
              (if isEmpty gap then lit ":" else lit ": ")) with
    (ms := members obj) (seen := (∅ : gset nat)) as [[[partial | e] seen'] ->]; eauto.
  - intros seen x Hx.
    destruct (IH gap (indent ++ gap) (a :: stack) x Hx) as [r ->]; [| eauto].
    assert (size (dom h ∖ list_to_set (a :: stack))
            < size (dom h ∖ list_to_set stack)).
    { apply subset_size. split; [set_solver |].
      intros Hsub. assert (a ∈ dom h ∖ list_to_set (a :: stack)); [| set_solver].
      apply Hsub. apply elem_of_difference. split; [assumption |].
      intros Hin. apply elem_of_list_to_set in Hin. contradiction. }
    lia.
  - eapply closed_members; eassumption.
Qed.

End PlainTotal.

(** ** A single corrupt line *)

Local Open Scope N_scope.

Lemma includes_elem (c : N) (s : str) : c ∈ s -> includes [c] s = true.
Proof.
  induction s as [|x r IH]; intros H; [inversion H |].
  apply elem_of_cons in H as [-> | H]; cbn [includes startsWith].
  - now rewrite N.eqb_refl.
  - rewrite IH by assumption. apply orb_true_r.
Qed.

Lemma split_one_line (sep : N) (s : str) : sep ∉ s -> split sep s = [s].
Proof.
  intros H. destruct (split_cases sep s) as [[_ Hs] | (part & s' & -> & _ & _)];
    [assumption |].
  exfalso. apply H. apply elem_of_app. right. apply list_elem_of_here.
Qed.

Lemma isJsonWs_isWhiteSpace (x : N) : isJsonWs x = true -> isWhiteSpace x = true.
Proof.
  unfold isJsonWs. intros H.
  repeat (apply orb_true_iff in H as [H | H]);
    apply N.eqb_eq in H; subst; reflexivity.
Qed.

Lemma trimStart_snoc (l : str) (y : N) :
  isWhiteSpace y = false -> exists t, trimStart (l ++ [y]) = t ++ [y].
Proof.
  intros Hy. induction l as [|z l IH]; simpl.
  - rewrite Hy. now exists [].
  - destruct (isWhiteSpace z); [exact IH |]. now exists (z :: l).
Qed.

Lemma trim_head (s : str) (c : N) :
  head (trim s) = Some c -> head (trimStart s) = Some c.
Proof.
  unfold trim, trimEnd. destruct (trimStart s) as [|y t] eqn:E; [discriminate |].
  pose proof (trimStart_head _ _ _ E) as Hy. cbn [rev].
  destruct (trimStart_snoc (rev t) y Hy) as [t' ->].
  rewrite rev_app_distr. exact id.
Qed.

(** Where the trim of a text opens with a brace, the parser finds, after
    its own whitespace, neither a quotation mark nor a closing brace. *)
Lemma skipWs_brace (text : str) :
  head (trimStart text) = Some 123 ->
  exists c r, skipWs (text ++ [125]) = c :: r
              /\ (c =? 125) = false /\ (c =? 34) = false.
Proof.
  induction text as [|x t IH]; [discriminate |]. cbn [trimStart app skipWs].
  destruct (isJsonWs x) eqn:Ej.
  - rewrite (isJsonWs_isWhiteSpace x Ej). exact IH.
  - destruct (isWhiteSpace x) eqn:Ew.
    + intros _. exists x, (t ++ [125]). split; [reflexivity |].
      unfold isWhiteSpace in Ew.
      rewrite !orb_true_iff, !andb_true_iff, !N.eqb_eq, !N.leb_le in Ew.
      split; apply N.eqb_neq; lia.
    + intros [= ->]. exists 123, (t ++ [125]). repeat split.
Qed.

Lemma startsWith_one (c : N) (s : str) :
  startsWith [c] s = true -> head s = Some c.
Proof.
  destruct s as [|x r]; simpl; [discriminate |].
  rewrite andb_true_r. intros H. apply N.eqb_eq in H as ->. reflexivity.
Qed.

(** A brace-shaped text between braces does not parse. *)
Lemma testJson_brace_fails (text : str) :
  head (trim text) = Some 123 ->
  exists e, JSON_parse (testJson true [] text) = SyntaxError e.
Proof.
  intros Hhead. apply trim_head, skipWs_brace in Hhead.
  destruct Hhead as (c & r & Hskip & H125 & H34).
  unfold testJson, JSON_parse. cbn [isEmpty].
  change (skipWs (lit "{" ++ [] ++ [] ++ text ++ lit "}"))
    with (123 :: text ++ [125]).
  cbn [parseValue]. change (123 =? 123) with true. cbv iota.
  rewrite Hskip, H125.
  change (lit "{") with [123]. cbn [length app parseMembers].
  rewrite H34. eauto.
Qed.

(** X16. A brace-shaped text of a single line that does not parse and
    holds a colon is replaced as a whole: [findJsonFragments] returns the
    object whose only member is the placeholder of line 1, with at least
    two warnings. *)
Theorem single_line_object_is_replaced (text e : str) :
  10 ∉ text -> 58 ∈ text ->
  shape text = (true, false) ->
  JSON_parse text = SyntaxError e ->
  (str_length text <= maxSize)%Z ->
  exists w,
    findJsonFragments text
    = Return (JObject [(lit "__corrupt_line_1", JNull)], w)
    /\ (2 <= length w)%nat.
Proof.
  intros Hline Hcolon Hshape He Hlen.
  assert (Hhead : head (trim text) = Some 123).
  { apply (f_equal fst) in Hshape. unfold shape in Hshape. cbn [fst] in Hshape.
    apply andb_true_iff in Hshape as [Hs _].
    exact (startsWith_one 123 (trim text) Hs). }
  assert (Hne : trim text <> []) by (destruct (trim text); discriminate).
  assert (Hbrace : 123 ∈ text).
  { apply trim_elem. destruct (trim text) as [|x t]; [discriminate |].
    injection Hhead as ->. apply list_elem_of_here. }
  unfold findJsonFragments.
  rewrite (findJsonFragmentsWith_invalid JSON_parse text e Hne Hlen He).
  cbv zeta. rewrite Hshape. cbn [negb andb].
  destruct (firstPass_invariant JSON_parse true [lit "Invalid JSON: " ++ e] text)
    as [(extra & Hw & Hcount & _) _].
  assert (Hflag : corruptLineNumbers
                    (firstPass JSON_parse true [lit "Invalid JSON: " ++ e] text)
                  = [1]).
  { unfold firstPass. rewrite (split_one_line 10 text Hline). cbn [fold_left].
    unfold classifyLine. cbn [currentLine lineNumber corruptLineNumbers].
    destruct (testJson_brace_fails text Hhead) as [e' ->].
    change (lit ":") with [58]. rewrite (includes_elem 58 text Hcolon).
    unfold hasBracket. change (lit "{") with [123].
    rewrite (includes_elem 123 text Hbrace). cbn [orb andb].
    destruct (inString _); reflexivity. }
  rewrite Hflag in *. rewrite (split_one_line 10 text Hline).
  replace (JSON_parse (reconstruct true false [1] [text]))
    with (Parsed (JObject [(lit "__corrupt_line_1", JNull)]))
    by (vm_compute; reflexivity).
  eexists. split; [reflexivity |].
  rewrite Hw, length_app. simpl in *. lia.
Qed.

Lemma single_line_object_is_replaced_witness :
  exists w,
    findJsonFragments (lit "{'a': 1,}")
    = Return (JObject [(lit "__corrupt_line_1", JNull)], w)
    /\ (2 <= length w)%nat.
Proof.
  apply (single_line_object_is_replaced (lit "{'a': 1,}") syntaxErrorMessage);
    [ vm_compute; intros H;
      repeat (apply elem_of_cons in H as [H | H]; [discriminate |]); inversion H
    | vm_compute; do 4 apply list_elem_of_further; apply list_elem_of_here
    | vm_compute; reflexivity | vm_compute; reflexivity | vm_compute; discriminate ].
Defined.

(** ** The output pane *)

(** X17. A text that is valid JSON but whose value is falsy (null, false,
    a number that is zero or that binary64 rounds to zero, the empty
    string) is shown as "No valid JSON found", although no error is
    set. *)
Theorem falsy_value_is_not_shown (st : viewState) (text : str) (v : json) :
  JSON_parse text = Parsed v -> truthy v = false ->
  viewOf st text = PaneMessage (lit "No valid JSON found")
  /\ vsError (processJson st text).1 = None.
Proof.
  intros Hv Ht.
  assert (Hne : trim text <> []).
  { intros Hb. rewrite (JSON_parse_blank text Hb) in Hv. discriminate. }
  unfold viewOf, outputPane, processJson.
  destruct (isEmpty (trim text)) eqn:Eb.
  { destruct (trim text); [congruence | discriminate]. }
  rewrite Hv. cbn [fst snd]. rewrite Ht. split; reflexivity.
Qed.

Lemma falsy_value_is_not_shown_witness :
  viewOf (ViewState None [] JNull) (lit "0")
  = PaneMessage (lit "No valid JSON found")
  /\ vsError (processJson (ViewState None [] JNull) (lit "0")).1 = None.
Proof.
  apply (falsy_value_is_not_shown (ViewState None [] JNull) (lit "0")
           (JNumber (Num 0 0))); vm_compute; reflexivity.
Defined.

(** A numeral too small for binary64 is zero to the code, and is not shown
    either; a numeral that rounds to the least positive binary64 number is
    shown. *)
Example tiny_number_is_not_shown :
  viewOf (ViewState None [] JNull) (lit "1e-400")
  = PaneMessage (lit "No valid JSON found")
  /\ viewOf (ViewState None [] JNull) (lit "5e-324")
     = PaneValue None (JNumber (Num 5 (-324))).
Proof. split; vm_compute; reflexivity. Qed.

(** X18. When the pane shows a value, the banner of a recovery is absent
    exactly for a text that parses to that value; for a text that does
    not parse the banner is there, counts at least one issue and always
    carries the sentence on placeholders, whatever the way the value was
    recovered. *)
Theorem banner_iff_recovered (st : viewState) (text : str)
    (b : option banner) (v : json) :
  viewOf st text = PaneValue b v ->
  match b with
  | None => JSON_parse text = Parsed v
  | Some bn =>
      (exists e, JSON_parse text = SyntaxError e)
      /\ (1 <= issues bn)%nat /\ placeholderSentence bn = true
      /\ exists w, findJsonFragments text = Return (v, w) /\ issues bn = length w
  end.
Proof.
  unfold viewOf, outputPane, processJson.
  destruct (isEmpty (trim text)) eqn:Eb; [discriminate |].
  apply isEmpty_false in Eb.
  destruct (JSON_parse text) as [p | e] eqn:He.
  { cbn [fst snd]. destruct (truthy p); [| discriminate].
    intros [= <- <-]. reflexivity. }
  destruct (findJsonFragments text) as [[result w] | m] eqn:Ef; [| discriminate].
  destruct (proj2 (findJsonFragments_warnings text result w Ef) e Eb He) as [w' ->].
  cbn [length Nat.ltb Nat.leb].
  destruct (truthy result) eqn:Et; [| discriminate].
  cbn [fst snd vsRecoveredJson vsWarnings vsError]. rewrite Et.
  intros [= <- <-]. cbn [issues placeholderSentence length].
  repeat split; eauto with lia.
Qed.

Lemma banner_iff_recovered_witness :
  exists e, JSON_parse (lit "Here is data: {'x': 5} end.") = SyntaxError e.
Proof.
  exact (proj1 (banner_iff_recovered (ViewState None [] JNull)
                  (lit "Here is data: {'x': 5} end.")
                  (Some (Banner 2 true true))
                  (JObject [(lit "x", JNumber (Num 5 0))])
                  ltac:(vm_compute; reflexivity))).
Defined.
